(** * gcs-backup: a shallow embedding of [main.go] and its verification

    The program reads a YAML configuration, walks the configured
    directories into a flat manifest ([filesToCopy]), splits the manifest
    into index ranges of [processFilesForGoRoutine] files, and uploads each
    range from its own goroutine.  Two package-level counters,
    [totalFilesOK] and [totalFilesError], are incremented under a
    [sync.Mutex]; a [sync.WaitGroup] is the completion barrier.

    Layout of this file:
    - Go primitives used by the program (errors, [context], [path.Base]);
    - the set-up phase ([usage], [checkFileConf], [parseFileConf],
      [getFilesToCopy]) in a small state-and-exit monad;
    - the dispatch loop of [copyFiles] (the index ranges);
    - the goroutine body as a sequence of atomic actions, and an
      interleaving semantics with an explicit mutex, wait group and
      non-atomic counter increments;
    - [copyFiles] and [main];
    - the theorems. *)

From Stdlib Require Import ZArith Lia Ascii String.
From stdpp Require Import base list strings pretty.

Open Scope Z_scope.

(** ** Go primitives *)

(** The double quote and the newline, for the [Printf] formats. *)
Definition dq : string := String (ascii_of_nat 34) EmptyString.
Definition nl : string := String (ascii_of_nat 10) EmptyString.

(** Go's [error] values.  Only the distinction made by [os.IsNotExist]
    matters to the control flow; the text is what [%s] / [%v] prints. *)
Inductive err_kind := NotExist | Permission | DeadlineExceeded | OtherError.

Record error := mkErr { err_kind_of : err_kind; Error : string }.

(** [os.IsNotExist(err)]: false on a nil error. *)
Definition IsNotExist (err : option error) : bool :=
  match err with
  | Some e => match err_kind_of e with NotExist => true | _ => false end
  | None => false
  end.

(** [os.FileInfo], as far as the program looks at it. *)
Record FileInfo := { Size : Z; IsDir : bool }.

(** [time.Duration] and instants are nanosecond counts. *)
Definition Second : Z := 1000000000.

(** [context.Context], as far as deadlines go.  [context.Background()]
    has no deadline; [context.WithTimeout(parent, d)] is
    [WithDeadline(parent, time.Now().Add(d))], and [WithDeadline] keeps
    the parent's deadline when that one is earlier. *)
Record Context := { Deadline : option Z }.

Definition Background : Context := {| Deadline := None |}.

Definition WithDeadline (parent : Context) (d : Z) : Context :=
  match Deadline parent with
  | Some cur => if cur <? d then parent else {| Deadline := Some d |}
  | None => {| Deadline := Some d |}
  end.

Definition WithTimeout (parent : Context) (timeout now : Z) : Context :=
  WithDeadline parent (now + timeout).

(** [math.Round(float64(m) / float64(b))] converted back to [int]:
    rounding to the nearest integer, halves away from zero.  Written on
    integers; the float64 quotient agrees with it for every [m] a slice
    length can take (below 2^53 the conversion is exact and the quotient
    never crosses a half). *)
Definition round_div (m b : Z) : Z :=
  if 0 <=? m then (2 * m + b) / (2 * b)
  else - ((2 * (- m) + b) / (2 * b)).

(** [path.Base]: the last element of a slash-separated path. *)
Definition slash : ascii := ascii_of_nat 47.

Fixpoint strip_trailing_slashes_rev (r : list ascii) : list ascii :=
  match r with
  | c :: r' => if Ascii.eqb c slash then strip_trailing_slashes_rev r' else r
  | [] => []
  end.

Fixpoint take_until_slash (r : list ascii) : list ascii :=
  match r with
  | c :: r' => if Ascii.eqb c slash then [] else c :: take_until_slash r'
  | [] => []
  end.

Definition path_Base (p : string) : string :=
  match list_ascii_of_string p with
  | [] => "."
  | l =>
      match strip_trailing_slashes_rev (rev l) with
      | [] => "/"
      | r => string_of_list_ascii (rev (take_until_slash r))
      end
  end.

(** [%02d] for the fields of the run prefix. *)
Definition pad2 (z : Z) : string :=
  if (0 <=? z) && (z <? 10) then "0" +:+ pretty z else pretty z.

(** ** Data model *)

Record GoogleCloudConf := { NameBucket : string; PathJSONKey : string }.

Record Configuration := {
  Directories : list string;
  GoogleCloud : GoogleCloudConf
}.

Definition emptyConfiguration : Configuration :=
  {| Directories := [];
     GoogleCloud := {| NameBucket := ""; PathJSONKey := "" |} |}.

(** What the operating system answers to one goroutine while it handles
    the manifest entry at one index: the errors of [os.Stat], [os.Open],
    [io.Copy] and [Writer.Close], and the clock reading taken by
    [context.WithTimeout].  Every index is handled once, so any actual
    execution is described by one such record per index. *)
Record file_env := {
  fe_stat : option error;
  fe_open : option error;
  fe_now : Z;
  fe_copy : option error;
  fe_close : option error
}.

(** A broken-down [time.Time], for the run prefix. *)
Record Time := {
  Year : Z; Month : Z; Day : Z; Hour : Z; Minute : Z; Sec : Z;
  UnixNano : Z
}.

(** One call of the [filepath.Walk] callback. *)
Record walk_visit := {
  wv_path : string;
  wv_info : option FileInfo;
  wv_err : option error
}.

(** The outside world of one run. *)
Record OS := {
  os_Args : list string;
  os_Stat : string -> option FileInfo * option error;
  ioutil_ReadFile : string -> string * option error;
  yaml_Unmarshal : string -> Configuration * option error;
  flag_Parse : list string -> string -> string + Z;
  filepath_Walk : string -> list walk_visit;
  storage_NewClient : string -> option error;
  time_Now : Time;
  time_Since : string;
  upload_env : Z -> file_env
}.

(** The package-level variables written by the set-up phase.  The two
    result counters are part of the goroutines' shared state below. *)
Record globals := {
  fileConf : string;
  conf : Configuration;
  totalFilesToCopy : Z;
  filesToCopy : list string
}.

Definition globals0 : globals :=
  {| fileConf := ""; conf := emptyConfiguration;
     totalFilesToCopy := 0; filesToCopy := [] |}.

(** ** The set-up phase: a state-and-exit monad *)

Inductive syscall :=
| SysStat (path : string)
| SysReadFile (path : string)
| SysUnmarshal
| SysFlagParse
| SysWalk (root : string)
| SysNewClient (cred : string).

Record pstate := {
  ps_globals : globals;
  ps_stdout : list string;
  ps_calls : list syscall
}.

Definition pstate0 : pstate :=
  {| ps_globals := globals0; ps_stdout := []; ps_calls := [] |}.

(** How a computation ends: a value, [os.Exit(code)], a run-time panic,
    or (for [copyFiles] only) a schedule that stops before the barrier
    opens. *)
Inductive result (A : Type) :=
| Ret (a : A)
| Exit (code : Z)
| Panic (msg : string)
| Blocked.
Arguments Ret {A} a.
Arguments Exit {A} code.
Arguments Panic {A} msg.
Arguments Blocked {A}.

Definition proc (A : Type) : Type := pstate -> pstate * result A.

Definition ret {A} (a : A) : proc A := fun s => (s, Ret a).

Definition bind {A B} (m : proc A) (k : A -> proc B) : proc B :=
  fun s =>
    match m s with
    | (s', Ret a) => k a s'
    | (s', Exit code) => (s', Exit code)
    | (s', Panic msg) => (s', Panic msg)
    | (s', Blocked) => (s', Blocked)
    end.

Notation "x <- c1 ;; c2" := (bind c1 (fun x => c2))
  (at level 100, c1 at next level, right associativity).
Notation "c1 ;;; c2" := (bind c1 (fun _ => c2))
  (at level 100, right associativity).

Definition os_Exit {A} (code : Z) : proc A := fun s => (s, Exit code).

Definition panic {A} (msg : string) : proc A := fun s => (s, Panic msg).

Definition Printf (line : string) : proc unit :=
  fun s => ({| ps_globals := ps_globals s;
               ps_stdout := ps_stdout s ++ [line];
               ps_calls := ps_calls s |}, Ret tt).

Definition syscall_ (c : syscall) : proc unit :=
  fun s => ({| ps_globals := ps_globals s;
               ps_stdout := ps_stdout s;
               ps_calls := ps_calls s ++ [c] |}, Ret tt).

Definition get_globals : proc globals := fun s => (s, Ret (ps_globals s)).

Definition set_globals (g : globals) : proc unit :=
  fun s => ({| ps_globals := g;
               ps_stdout := ps_stdout s;
               ps_calls := ps_calls s |}, Ret tt).

Definition set_fileConf (v : string) : proc unit :=
  g <- get_globals ;;
  set_globals {| fileConf := v; conf := conf g;
                 totalFilesToCopy := totalFilesToCopy g;
                 filesToCopy := filesToCopy g |}.

Definition set_conf (v : Configuration) : proc unit :=
  g <- get_globals ;;
  set_globals {| fileConf := fileConf g; conf := v;
                 totalFilesToCopy := totalFilesToCopy g;
                 filesToCopy := filesToCopy g |}.

(** [filesToCopy = append(filesToCopy, path); totalFilesToCopy++] *)
Definition add_file (path : string) : proc unit :=
  g <- get_globals ;;
  set_globals {| fileConf := fileConf g; conf := conf g;
                 totalFilesToCopy := totalFilesToCopy g + 1;
                 filesToCopy := filesToCopy g ++ [path] |}.

(** A method call on an [os.FileInfo] interface value: a nil interface
    panics. *)
Definition info_Size (info : option FileInfo) : proc Z :=
  match info with
  | Some i => ret (Size i)
  | None => panic "invalid memory address or nil pointer dereference"
  end.

Definition info_IsDir (info : option FileInfo) : proc bool :=
  match info with
  | Some i => ret (IsDir i)
  | None => panic "invalid memory address or nil pointer dereference"
  end.

Definition when (b : bool) (m : proc unit) : proc unit :=
  if b then m else ret tt.

Section SetUp.
Variable os : OS.

Definition Stat (path : string) : proc (option FileInfo * option error) :=
  syscall_ (SysStat path) ;;; ret (os_Stat os path).

(** [os.Args[0]] *)
Definition Args0 : proc string :=
  match os_Args os with
  | a :: _ => ret a
  | [] => panic "index out of range [0] with length 0"
  end.

Definition usage : proc unit :=
  a0 <- Args0 ;;
  Printf ("Usage: " +:+ path_Base a0 +:+ " -conf fileconf.yaml" +:+ nl) ;;;
  os_Exit 1.

Definition checkFileConf : proc unit :=
  g <- get_globals ;;
  r <- Stat (fileConf g) ;;
  let '(info, err) := r in
  when (IsNotExist err)
    (Printf ("[ERROR] File " +:+ dq +:+ fileConf g +:+ dq +:+ " not found" +:+ nl) ;;;
     os_Exit 1) ;;;
  sz <- info_Size info ;;
  when (sz =? 0)
    (Printf ("[ERROR] File " +:+ dq +:+ fileConf g +:+ dq +:+ " is empty" +:+ nl) ;;;
     os_Exit 1).

Definition parseFileConf : proc unit :=
  g <- get_globals ;;
  syscall_ (SysReadFile (fileConf g)) ;;;
  let '(yamlFile, err) := ioutil_ReadFile os (fileConf g) in
  match err with
  | Some e =>
      Printf ("[ERROR] Reading file configuration: " +:+ Error e +:+ nl) ;;;
      os_Exit 1
  | None => ret tt
  end ;;;
  syscall_ SysUnmarshal ;;;
  let '(cf, err) := yaml_Unmarshal os yamlFile in
  set_conf cf ;;;
  match err with
  | Some e =>
      Printf ("[ERROR] Parsing configuration: " +:+ Error e +:+ nl) ;;;
      os_Exit 1
  | None => ret tt
  end ;;;
  let key := PathJSONKey (GoogleCloud cf) in
  r <- Stat key ;;
  let '(info, err) := r in
  when (IsNotExist err)
    (Printf ("[ERROR] File pathJsonKey " +:+ dq +:+ key +:+ dq +:+ " not found" +:+ nl) ;;;
     os_Exit 1) ;;;
  sz <- info_Size info ;;
  when (sz =? 0)
    (Printf ("[ERROR] File pathJsonKey " +:+ dq +:+ key +:+ dq +:+ " is empty" +:+ nl) ;;;
     os_Exit 1).

(** The callback handed to [filepath.Walk]: its result is the error it
    returns to the walk. *)
Definition walk_callback (v : walk_visit) : proc (option error) :=
  match wv_err v with
  | Some e => ret (Some e)
  | None =>
      d <- info_IsDir (wv_info v) ;;
      when (negb d) (add_file (wv_path v)) ;;;
      ret None
  end.

(** [filepath.Walk] stops at the first error the callback returns and
    returns it (the callback never returns [SkipDir]). *)
Fixpoint walk (visits : list walk_visit) : proc (option error) :=
  match visits with
  | [] => ret None
  | v :: rest =>
      r <- walk_callback v ;;
      match r with
      | Some e => ret (Some e)
      | None => walk rest
      end
  end.

Fixpoint getFilesToCopy_loop (dirs : list string) : proc unit :=
  match dirs with
  | [] => ret tt
  | d :: rest =>
      r <- Stat d ;;
      (if IsNotExist (snd r) then
         Printf ("[WARNING] Dir " +:+ dq +:+ d +:+ dq +:+ " not found" +:+ nl)
       else
         syscall_ (SysWalk d) ;;;
         err <- walk (filepath_Walk os d) ;;
         match err with
         | Some e => Printf ("[ERROR]: " +:+ Error e +:+ nl) ;;; os_Exit 1
         | None => ret tt
         end) ;;;
      getFilesToCopy_loop rest
  end.

Definition getFilesToCopy : proc unit :=
  g <- get_globals ;;
  getFilesToCopy_loop (Directories (conf g)).

End SetUp.

(** ** [copyFiles]: the dispatch loop *)

Definition processFilesForGoRoutine : Z := 20.

(** [goRoutines], after the clamp [if goRoutines == 0 { goRoutines = 1 }]. *)
Definition goRoutines (total : Z) : Z :=
  let r := round_div total processFilesForGoRoutine in
  if r =? 0 then 1 else r.

(** The body of [for i := 0; i < goRoutines; i++]: [start] and [end_] are
    the loop-carried variables, [k] the iterations left; the result lists
    the arguments [(start, end)] of the goroutines in spawn order.  [W] is
    [goRoutines] and [len] is [len(filesToCopy)]. *)
Fixpoint dispatch_loop (W len : Z) (k : nat) (i start end_ : Z)
  : list (Z * Z) :=
  match k with
  | O => []
  | S k' =>
      let '(s, e) :=
        if W =? 1 then (0, len - 1)
        else if i =? 0 then (0, processFilesForGoRoutine - 1)
        else if i =? W - 1 then (end_ + 1, len - 1)
        else (end_ + 1, (end_ + 1 + processFilesForGoRoutine) - 1) in
      (s, e) :: dispatch_loop W len k' (i + 1) s e
  end.

Definition work_units (total len : Z) : list (Z * Z) :=
  dispatch_loop (goRoutines total) len (Z.to_nat (goRoutines total)) 0 0 0.

(** ** The goroutine body as atomic actions *)

Inductive counter := FilesOK | FilesError.

Inductive action :=
| AIndex (n : Z) (r : option string)    (* filesToCopy[n]; None: out of range *)
| AStat (path : string)
| APrintf (line : string)               (* fmt.Printf: a line on stdout *)
| AErrorf (msg : string)                (* fmt.Errorf: builds a value, dropped *)
| AOpen (n : Z) (path : string) (err : option error)
| AWithTimeout (n : Z) (ctx : Context)
| ANewWriter (bucket object : string) (ctx : Context)
| ACopy (n : Z) (err : option error)
| AWriterClose (n : Z) (err : option error)
| ALock
| ALoad (k : counter)                   (* first half of counter++ *)
| AStore (k : counter)                  (* second half of counter++ *)
| AUnlock
| ACancel (n : Z)
| AFileClose (n : Z)
| ADone.                                (* wg.Done() *)

(** [filesToCopy[n]] *)
Definition index (files : list string) (n : Z) : option string :=
  if n <? 0 then None else files !! Z.to_nat n.

(** [mutex.Lock(); counter++; mutex.Unlock()] *)
Definition locked_incr (k : counter) : list action :=
  [ALock; ALoad k; AStore k; AUnlock].

Section Goroutine.
Variable E : Z -> file_env.          (* the answers of the system, by index *)
Variable ctx : Context.              (* ctx of copyFiles *)
Variable bucket pathBase : string.
Variable files : list string.        (* filesToCopy *)

(** One iteration of [for n := start; n <= end; n++], after
    [path := filesToCopy[n]]. *)
Definition file_body (n : Z) (path : string) : list action :=
  AStat path ::
  if IsNotExist (fe_stat (E n)) then
    [APrintf ("[WARNING] File " +:+ dq +:+ path +:+ dq +:+ " not found" +:+ nl)]
  else
    AOpen n path (fe_open (E n)) ::
    match fe_open (E n) with
    | Some err => [AErrorf ("os.Open: " +:+ Error err)]
    | None =>
        let ctx' := WithTimeout ctx (Second * 50) (fe_now (E n)) in
        AWithTimeout n ctx' ::
        ANewWriter bucket (pathBase +:+ path) ctx' ::
        ACopy n (fe_copy (E n)) ::
        match fe_copy (E n) with
        | Some err =>
            AErrorf ("io.Copy: " +:+ Error err) ::
            locked_incr FilesError ++ [ACancel n; AFileClose n]
        | None =>
            AWriterClose n (fe_close (E n)) ::
            match fe_close (E n) with
            | Some err =>
                AErrorf ("Writer.Close: " +:+ Error err) ::
                locked_incr FilesError ++ [ACancel n; AFileClose n]
            | None =>
                APrintf ("[OK] File " +:+ dq +:+ pathBase +:+ path +:+ dq
                         +:+ " copied successfully" +:+ nl) ::
                locked_incr FilesOK ++ [ACancel n; AFileClose n]
            end
        end
    end.

(** [for n := start; n <= end; n++ { ... }] with [k] iterations left. *)
Fixpoint worker_loop (k : nat) (n : Z) : list action :=
  match k with
  | O => []
  | S k' =>
      AIndex n (index files n) ::
      match index files n with
      | None => []
      | Some path => file_body n path ++ worker_loop k' (n + 1)
      end
  end.

(** [go func(start, end int) { for ... ; wg.Done() }(start, end)] *)
Definition goroutine (start end_ : Z) : list action :=
  worker_loop (Z.to_nat (end_ - start + 1)) start ++ [ADone].

End Goroutine.

(** ** Interleaving semantics *)

(** What a goroutine owns: the register of a pending [counter++], its
    open file handles and its live timeout contexts (by manifest index). *)
Record local := {
  reg : Z;
  open_files : list Z;
  live_ctxs : list Z
}.

Definition local0 : local := {| reg := 0; open_files := []; live_ctxs := [] |}.

(** What the goroutines share. *)
Record shared := {
  mutex : bool;                 (* locked? *)
  wg : Z;                       (* the WaitGroup counter *)
  totalFilesOK : Z;
  totalFilesError : Z;
  stdout : list string;
  crashed : bool                (* a run-time panic took the process down *)
}.

Record thread := { prog : list action; loc : local }.

Record config := { threads : list thread; sh : shared }.

Definition counter_val (k : counter) (s : shared) : Z :=
  match k with
  | FilesOK => totalFilesOK s
  | FilesError => totalFilesError s
  end.

Definition set_counter (k : counter) (v : Z) (s : shared) : shared :=
  match k with
  | FilesOK =>
      {| mutex := mutex s; wg := wg s; totalFilesOK := v;
         totalFilesError := totalFilesError s;
         stdout := stdout s; crashed := crashed s |}
  | FilesError =>
      {| mutex := mutex s; wg := wg s; totalFilesOK := totalFilesOK s;
         totalFilesError := v;
         stdout := stdout s; crashed := crashed s |}
  end.

Definition set_mutex (b : bool) (s : shared) : shared :=
  {| mutex := b; wg := wg s; totalFilesOK := totalFilesOK s;
     totalFilesError := totalFilesError s;
     stdout := stdout s; crashed := crashed s |}.

Definition set_wg (v : Z) (s : shared) : shared :=
  {| mutex := mutex s; wg := v; totalFilesOK := totalFilesOK s;
     totalFilesError := totalFilesError s;
     stdout := stdout s; crashed := crashed s |}.

Definition print (line : string) (s : shared) : shared :=
  {| mutex := mutex s; wg := wg s; totalFilesOK := totalFilesOK s;
     totalFilesError := totalFilesError s;
     stdout := stdout s ++ [line]; crashed := crashed s |}.

Definition crash (s : shared) : shared :=
  {| mutex := mutex s; wg := wg s; totalFilesOK := totalFilesOK s;
     totalFilesError := totalFilesError s;
     stdout := stdout s; crashed := true |}.

Definition set_reg (v : Z) (l : local) : local :=
  {| reg := v; open_files := open_files l; live_ctxs := live_ctxs l |}.

Definition set_open_files (v : list Z) (l : local) : local :=
  {| reg := reg l; open_files := v; live_ctxs := live_ctxs l |}.

Definition set_live_ctxs (v : list Z) (l : local) : local :=
  {| reg := reg l; open_files := open_files l; live_ctxs := v |}.

(** Drop the first occurrence of [n]. *)
Fixpoint release (n : Z) (l : list Z) : list Z :=
  match l with
  | [] => []
  | x :: r => if x =? n then r else x :: release n r
  end.

(** One atomic action of a goroutine.  [None]: the goroutine cannot move
    now ([Lock] on a locked mutex). *)
Definition exec (a : action) (l : local) (s : shared) : option (local * shared) :=
  match a with
  | AIndex _ None => Some (l, crash s)
  | AIndex _ (Some _) => Some (l, s)
  | AStat _ => Some (l, s)
  | APrintf line => Some (l, print line s)
  | AErrorf _ => Some (l, s)
  | AOpen n _ None => Some (set_open_files (n :: open_files l) l, s)
  | AOpen _ _ (Some _) => Some (l, s)
  | AWithTimeout n _ => Some (set_live_ctxs (n :: live_ctxs l) l, s)
  | ANewWriter _ _ _ => Some (l, s)
  | ACopy _ _ => Some (l, s)
  | AWriterClose _ _ => Some (l, s)
  | ALock => if mutex s then None else Some (l, set_mutex true s)
  | ALoad k => Some (set_reg (counter_val k s) l, s)
  | AStore k => Some (l, set_counter k (reg l + 1) s)
  | AUnlock => if mutex s then Some (l, set_mutex false s) else Some (l, crash s)
  | ACancel n => Some (set_live_ctxs (release n (live_ctxs l)) l, s)
  | AFileClose n => Some (set_open_files (release n (open_files l)) l, s)
  | ADone => if wg s <=? 0 then Some (l, crash s) else Some (l, set_wg (wg s - 1) s)
  end.

(** Goroutine [t] takes one step.  [None]: it is finished, blocked, or
    the process is down. *)
Definition step (t : nat) (c : config) : option config :=
  if crashed (sh c) then None else
  match threads c !! t with
  | None => None
  | Some th =>
      match prog th with
      | [] => None
      | a :: rest =>
          match exec a (loc th) (sh c) with
          | None => None
          | Some (l', s') =>
              Some {| threads := <[t := {| prog := rest; loc := l' |}]> (threads c);
                      sh := s' |}
          end
      end
  end.

(** A schedule is the list of goroutines in the order they move. *)
Fixpoint run (sched : list nat) (c : config) : option config :=
  match sched with
  | [] => Some c
  | t :: rest =>
      match step t c with
      | Some c' => run rest c'
      | None => None
      end
  end.

(** A goroutine run on its own, from given local and shared state. *)
Fixpoint exec_all (p : list action) (l : local) (s : shared)
  : option (local * shared) :=
  match p with
  | [] => Some (l, s)
  | a :: r =>
      match exec a l s with
      | Some (l', s') => exec_all r l' s'
      | None => None
      end
  end.

Definition shared0 (W : Z) : shared :=
  {| mutex := false; wg := W; totalFilesOK := 0; totalFilesError := 0;
     stdout := []; crashed := false |}.

(** The state right after the dispatch loop: [wg.Add(goRoutines)] and
    one goroutine per range. *)
Definition spawn (E : Z -> file_env) (bucket pathBase : string)
    (total : Z) (files : list string) : config :=
  {| threads :=
       (fun u => {| prog := goroutine E Background bucket pathBase files
                              (fst u) (snd u);
                    loc := local0 |})
         <$> work_units total (Z.of_nat (length files));
     sh := shared0 (goRoutines total) |}.

(** The private tally of one goroutine: the counters it produces when it
    runs alone from zero. *)
Definition local_tally (p : list action) : Z * Z :=
  match exec_all p local0 (shared0 1) with
  | Some (_, s) => (totalFilesOK s, totalFilesError s)
  | None => (0, 0)
  end.

Definition sumZ (l : list Z) : Z := foldr Z.add 0 l.

(** A round-robin scheduler: from goroutine [t] on, the first one that
    can move. *)
Fixpoint first_runnable (cands : list nat) (c : config) : option (nat * config) :=
  match cands with
  | [] => None
  | t :: r =>
      match step t c with
      | Some c' => Some (t, c')
      | None => first_runnable r c
      end
  end.

Fixpoint round_robin (fuel : nat) (t : nat) (c : config) : list nat :=
  match fuel with
  | O => []
  | S f =>
      let n := length (threads c) in
      match first_runnable (rotate t (seq 0 n)) c with
      | None => []
      | Some (t', c') => t' :: round_robin f (S t' mod n)%nat c'
      end
  end.

(** ** [copyFiles] and [main] *)

(** The run prefix [%d-%02d-%02d_%02d:%02d:%02d]. *)
Definition run_prefix (t : Time) : string :=
  pretty (Year t) +:+ "-" +:+ pad2 (Month t) +:+ "-" +:+ pad2 (Day t) +:+ "_"
  +:+ pad2 (Hour t) +:+ ":" +:+ pad2 (Minute t) +:+ ":" +:+ pad2 (Sec t).

(** The four lines printed after [wg.Wait()]. *)
Definition report (total ok err : Z) (elapsed : string) : list string :=
  [ nl +:+ nl +:+ "Total files to copy: " +:+ pretty total +:+ " " +:+ nl;
    "Total files copied: " +:+ pretty ok +:+ " " +:+ nl;
    "Total files with errors: " +:+ pretty err +:+ " " +:+ nl;
    "Copy files took: " +:+ elapsed +:+ " " +:+ nl ].

Definition Printfs (lines : list string) : proc unit :=
  fun s => ({| ps_globals := ps_globals s;
               ps_stdout := ps_stdout s ++ lines;
               ps_calls := ps_calls s |}, Ret tt).

Definition blocked {A} : proc A := fun s => (s, Blocked).

Section Main.
Variable os : OS.

(** [copyFiles] under one schedule of its goroutines.  [wg.Wait()]
    returns once the counter is zero. *)
Definition copyFiles (sched : list nat) : proc unit :=
  g <- get_globals ;;
  let cred := PathJSONKey (GoogleCloud (conf g)) in
  syscall_ (SysNewClient cred) ;;;
  match storage_NewClient os cred with
  | Some e => Printf ("[ERROR] " +:+ Error e) ;;; os_Exit 1
  | None => ret tt
  end ;;;
  let pathBase := run_prefix (time_Now os) in
  match run sched (spawn (upload_env os) (NameBucket (GoogleCloud (conf g)))
                     pathBase (totalFilesToCopy g) (filesToCopy g)) with
  | None => blocked
  | Some c =>
      Printfs (stdout (sh c)) ;;;
      if crashed (sh c) then panic "goroutine panic"
      else if wg (sh c) =? 0 then
        Printfs (report (totalFilesToCopy g) (totalFilesOK (sh c))
                   (totalFilesError (sh c)) (time_Since os))
      else blocked
  end.

Definition main (sched : list nat) : proc unit :=
  when (length (os_Args os) =? 1)%nat (usage os) ;;;
  set_fileConf "conf.yaml" ;;;
  syscall_ SysFlagParse ;;;
  match flag_Parse os (os_Args os) "conf.yaml" with
  | inl v => set_fileConf v
  | inr code => os_Exit code
  end ;;;
  checkFileConf os ;;;
  parseFileConf os ;;;
  getFilesToCopy os ;;;
  copyFiles sched ;;;
  os_Exit 0.

End Main.

(** ** Concrete inputs *)

Definition noErr : file_env :=
  {| fe_stat := None; fe_open := None; fe_now := 0;
     fe_copy := None; fe_close := None |}.

Definition manifest (m : nat) : list string :=
  map (fun i => "/data/f" +:+ pretty (Z.of_nat i)) (seq 0 m).

(** ** Predicates used in the statements *)

(** [tiles B lo hi us]: the ranges [us] cut [lo..hi] into consecutive
    pieces, every piece but the last of exactly [B] indices, the last one
    non-empty and ending at [hi]. *)
Inductive tiles (B : Z) : Z -> Z -> list (Z * Z) -> Prop :=
| tiles_last lo hi :
    lo <= hi -> tiles B lo hi [(lo, hi)]
| tiles_cons lo hi us :
    tiles B (lo + B) hi us -> tiles B lo hi ((lo, lo + B - 1) :: us).

(** Counting actions in a program. *)
Fixpoint count_if (f : action -> bool) (p : list action) : Z :=
  match p with
  | [] => 0
  | a :: r => (if f a then 1 else 0) + count_if f r
  end.

Definition is_store (k : counter) (a : action) : bool :=
  match a, k with
  | AStore FilesOK, FilesOK => true
  | AStore FilesError, FilesError => true
  | _, _ => false
  end.

Definition is_done (a : action) : bool :=
  match a with ADone => true | _ => false end.


Definition is_sync (a : action) : bool :=
  match a with
  | ALock | ALoad _ | AStore _ | AUnlock => true
  | _ => false
  end.

(** The lines a program writes to standard output. *)
Fixpoint printed (p : list action) : list string :=
  match p with
  | [] => []
  | APrintf line :: r => line :: printed r
  | _ :: r => printed r
  end.

(** The outcome of one manifest entry, read off the system's answers. *)
Definition missing (e : file_env) : bool := IsNotExist (fe_stat e).


Definition present_openable (e : file_env) : bool :=
  negb (missing e) && bool_decide (fe_open e = None).

Definition transfer_failed (e : file_env) : bool :=
  present_openable e &&
  (bool_decide (fe_copy e <> None) || bool_decide (fe_close e <> None)).

Definition transferred (e : file_env) : bool :=
  present_openable e &&
  bool_decide (fe_copy e = None) && bool_decide (fe_close e = None).

(** [f lo + f (lo+1) + ...], [k] terms. *)
Fixpoint sum_from (f : Z -> Z) (lo : Z) (k : nat) : Z :=
  match k with
  | O => 0
  | S k' => f lo + sum_from f (lo + 1) k'
  end.

Definition b2z (b : bool) : Z := if b then 1 else 0.

(** How many of the [m] manifest entries satisfy [p]. *)
Definition count_files (p : file_env -> bool) (E : Z -> file_env) (m : nat) : Z :=
  sum_from (fun n => b2z (p (E n))) 0 m.

(** ** The invariant of the interleaving semantics *)

(** Actions that touch neither the mutex nor a counter, and cannot
    panic on their own. *)
Definition plain (a : action) : bool :=
  match a with
  | ALock | ALoad _ | AStore _ | AUnlock | AIndex _ None => false
  | _ => true
  end.

(** Programs of a goroutine that is outside the critical section: every
    counter access sits in a [Lock; Load; Store; Unlock] block. *)
Inductive wf_out : list action -> Prop :=
| wf_nil : wf_out []
| wf_incr k r :
    wf_out r -> wf_out (ALock :: ALoad k :: AStore k :: AUnlock :: r)
| wf_plain a r :
    plain a = true -> wf_out r -> wf_out (a :: r).

(** Programs of the goroutine that is inside the critical section; once
    it has loaded a counter, its register holds the counter's value. *)
Inductive wf_cs (s : shared) (l : local) : list action -> Prop :=
| wf_cs_load k r :
    wf_out r -> wf_cs s l (ALoad k :: AStore k :: AUnlock :: r)
| wf_cs_store k r :
    reg l = counter_val k s -> wf_out r ->
    wf_cs s l (AStore k :: AUnlock :: r)
| wf_cs_unlock r :
    wf_out r -> wf_cs s l (AUnlock :: r).

Definition ends_done (p : list action) : Prop :=
  p = [] \/ last p = Some ADone.

(** Actions of one kind still to be executed, over all goroutines. *)
Definition pending (f : action -> bool) (ths : list thread) : Z :=
  sumZ (map (fun th => count_if f (prog th)) ths).

(** Steps still to be executed, over all goroutines. *)
Definition remaining (c : config) : nat :=
  sum_list (map (fun th => length (prog th)) (threads c)).

Record Inv (TOK TERR : Z) (c : config) : Prop := {
  inv_alive : crashed (sh c) = false;
  inv_mutex :
    if mutex (sh c) then
      exists h th,
        threads c !! h = Some th /\
        wf_cs (sh c) (loc th) (prog th) /\
        forall t th', threads c !! t = Some th' -> t <> h -> wf_out (prog th')
    else
      forall t th, threads c !! t = Some th -> wf_out (prog th);
  inv_ok :
    totalFilesOK (sh c) + pending (is_store FilesOK) (threads c) = TOK;
  inv_err :
    totalFilesError (sh c) + pending (is_store FilesError) (threads c) = TERR;
  inv_wg : wg (sh c) = pending is_done (threads c);
  inv_done : forall t th, threads c !! t = Some th -> ends_done (prog th)
}.

(** A range whose indices all lie inside the manifest [files]. *)
Definition in_range (files : list string) (u : Z * Z) : Prop :=
  0 <= fst u /\ snd u <= Z.of_nat (length files) - 1 /\ fst u <= snd u + 1.

(** The deadlines of the timeout contexts a program creates, by index. *)
Fixpoint deadlines (p : list action) : list (Z * option Z) :=
  match p with
  | [] => []
  | AWithTimeout n ctx :: r => (n, Deadline ctx) :: deadlines r
  | _ :: r => deadlines r
  end.

(** The indices at which a program evaluates [filesToCopy[n]]. *)
Fixpoint indexed (p : list action) : list Z :=
  match p with
  | [] => []
  | AIndex n _ :: r => n :: indexed r
  | _ :: r => indexed r
  end.

(** [totalFilesToCopy] and [filesToCopy] agree. *)
Definition consistent (st : pstate) : Prop :=
  totalFilesToCopy (ps_globals st) =
  Z.of_nat (length (filesToCopy (ps_globals st))).

Definition preserves (P : pstate -> Prop) {A} (m : proc A) : Prop :=
  forall st st' r, P st -> m st = (st', r) -> P st'.

(** ** Concrete runs *)

Definition deadline_exceeded : error :=
  mkErr DeadlineExceeded "context deadline exceeded".

Definition permission_denied : error :=
  mkErr Permission "permission denied".

Definition not_found : error :=
  mkErr NotExist "no such file or directory".

(** 45 files: number 3 times out during the copy, number 5 has been
    removed, number 7 cannot be opened, number 25 fails on
    [Writer.Close]; the others are uploaded. *)
Definition demo_env (n : Z) : file_env :=
  if n =? 3 then
    {| fe_stat := None; fe_open := None; fe_now := 7 * Second;
       fe_copy := Some deadline_exceeded; fe_close := None |}
  else if n =? 5 then
    {| fe_stat := Some not_found; fe_open := None; fe_now := 0;
       fe_copy := None; fe_close := None |}
  else if n =? 7 then
    {| fe_stat := None; fe_open := Some permission_denied; fe_now := 0;
       fe_copy := None; fe_close := None |}
  else if n =? 25 then
    {| fe_stat := None; fe_open := None; fe_now := 9 * Second;
       fe_copy := None; fe_close := Some (mkErr OtherError "googleapi: 503") |}
  else
    {| fe_stat := None; fe_open := None; fe_now := n * Second;
       fe_copy := None; fe_close := None |}.

Definition demo_prefix : string := "2024-03-09_14:05:00".

Definition demo_start : config :=
  spawn demo_env "backups" demo_prefix 45 (manifest 45).

Definition demo_sched : list nat := round_robin 1000 0 demo_start.

Definition demo_final : config :=
  match run demo_sched demo_start with
  | Some c => c
  | None => demo_start
  end.

(** One file whose transfer starts 100 seconds after the run did. *)
Definition late_env (n : Z) : file_env :=
  {| fe_stat := None; fe_open := None; fe_now := 100 * Second;
     fe_copy := None; fe_close := None |}.

(** One file that cannot be opened. *)
Definition unreadable_env (n : Z) : file_env :=
  {| fe_stat := None; fe_open := Some permission_denied; fe_now := 0;
     fe_copy := None; fe_close := None |}.

(** One file whose upload is cut by the network. *)
Definition broken_pipe_env (n : Z) : file_env :=
  {| fe_stat := None; fe_open := None; fe_now := 0;
     fe_copy := Some (mkErr OtherError "write: broken pipe"); fe_close := None |}.

Definition demo_conf : Configuration :=
  {| Directories := ["/data"];
     GoogleCloud := {| NameBucket := "backups"; PathJSONKey := "key.json" |} |}.

Definition demo_time : Time :=
  {| Year := 2024; Month := 3; Day := 9; Hour := 14; Minute := 5; Sec := 0;
     UnixNano := 0 |}.

(** A world in which everything is in place; [args] is [os.Args] and
    [stat] answers [os.Stat]. *)
Definition world (args : list string)
    (stat : string -> option FileInfo * option error)
    (E : Z -> file_env) : OS :=
  {| os_Args := args;
     os_Stat := stat;
     ioutil_ReadFile := fun _ => ("googleCloud: ...", None);
     yaml_Unmarshal := fun _ => (demo_conf, None);
     flag_Parse := fun a d =>
       match a with
       | _ :: "-config" :: v :: _ => inl v
       | _ => inl d
       end;
     filepath_Walk := fun root =>
       [ {| wv_path := root;
            wv_info := Some {| Size := 4096; IsDir := true |};
            wv_err := None |};
         {| wv_path := root +:+ "/f0";
            wv_info := Some {| Size := 12; IsDir := false |};
            wv_err := None |} ];
     storage_NewClient := fun _ => None;
     time_Now := demo_time;
     time_Since := "1.5s";
     upload_env := E |}.

Definition stat_ok (path : string) : option FileInfo * option error :=
  (Some {| Size := 64; IsDir := false |}, None).

(** [os.Stat] fails with EACCES on the configuration file. *)
Definition stat_conf_denied (path : string) : option FileInfo * option error :=
  if String.eqb path "/srv/private/conf.yaml" then (None, Some permission_denied)
  else stat_ok path.

(** [os.Stat] fails with EACCES on the credential file. *)
Definition stat_key_denied (path : string) : option FileInfo * option error :=
  if String.eqb path "key.json" then (None, Some permission_denied)
  else stat_ok path.

Definition bare_world : OS :=
  world ["/usr/local/bin/gcs-backup"] stat_ok (fun _ => noErr).

Definition conf_denied_world : OS :=
  world ["gcs-backup"; "-config"; "/srv/private/conf.yaml"] stat_conf_denied
        (fun _ => noErr).

Definition key_denied_world : OS :=
  world ["gcs-backup"; "-config"; "conf.yaml"] stat_key_denied (fun _ => noErr).

Definition good_world : OS :=
  world ["gcs-backup"; "-config"; "conf.yaml"] stat_ok (fun _ => noErr).

(** ** Further predicates: resources, log lines, discovery *)

Definition is_print (a : action) : bool :=
  match a with APrintf _ => true | _ => false end.

(** A manifest entry that gets a line on standard output. *)
Definition logged (e : file_env) : bool := missing e || transferred e.

(** A goroutine inside the critical section: its next action is the
    load, the store or the unlock of a [counter++]. *)
Definition in_critical_section (p : list action) : bool :=
  match p with
  | (ALoad _ | AStore _ | AUnlock) :: _ => true
  | _ => false
  end.

(** The file handles and timeout contexts a goroutine holds. *)
Definition resources (l : local) : list Z * list Z :=
  (open_files l, live_ctxs l).

(** What one action does to them. *)
Definition hold (a : action) (r : list Z * list Z) : list Z * list Z :=
  match a with
  | AOpen n _ None => (n :: fst r, snd r)
  | AWithTimeout n _ => (fst r, n :: snd r)
  | ACancel n => (fst r, release n (snd r))
  | AFileClose n => (release n (fst r), snd r)
  | _ => r
  end.

Fixpoint held_after (p : list action) (r : list Z * list Z) : list Z * list Z :=
  match p with
  | [] => r
  | a :: p' => held_after p' (hold a r)
  end.

(** The largest number of handles, or of contexts, held at any point
    while [p] runs from [r]. *)
Fixpoint peak (p : list action) (r : list Z * list Z) : nat :=
  match p with
  | [] => Nat.max (length (fst r)) (length (snd r))
  | a :: p' =>
      Nat.max (Nat.max (length (fst r)) (length (snd r))) (peak p' (hold a r))
  end.

(** The objects a program opens for writing: bucket and key. *)
Fixpoint writers (p : list action) : list (string * string) :=
  match p with
  | [] => []
  | ANewWriter b o _ :: r => (b, o) :: writers r
  | _ :: r => writers r
  end.

(** A property of start and end state that every run of [m] has. *)
Definition relates (R : pstate -> pstate -> Prop) {A} (m : proc A) : Prop :=
  forall st st' r, m st = (st', r) -> R st st'.

(** [m] returns, panics, or exits with code 1: it never exits with
    another code and never waits. *)
Definition exits_with_1 {A} (m : proc A) : Prop :=
  forall st st' r,
    m st = (st', r) ->
    match r with
    | Exit code => code = 1
    | Blocked => False
    | _ => True
    end.

(** The manifest grew by [added], the other globals are the same. *)
Definition grew_by (added : list string) (st st' : pstate) : Prop :=
  filesToCopy (ps_globals st') = filesToCopy (ps_globals st) ++ added /\
  totalFilesToCopy (ps_globals st') =
    totalFilesToCopy (ps_globals st) + Z.of_nat (length added) /\
  fileConf (ps_globals st') = fileConf (ps_globals st) /\
  conf (ps_globals st') = conf (ps_globals st).

Definition grows (allowed : string -> Prop) (st st' : pstate) : Prop :=
  exists added, grew_by added st st' /\ Forall allowed added.

(** A visit that hands the callback a regular file. *)
Definition regular (v : walk_visit) : bool :=
  match wv_err v, wv_info v with
  | None, Some i => negb (IsDir i)
  | _, _ => false
  end.

(** A visit the callback gets through: no error, and a [FileInfo]. *)
Definition passable (v : walk_visit) : Prop :=
  wv_err v = None /\ wv_info v <> None.

Definition regular_files (visits : list walk_visit) : list string :=
  wv_path <$> filter (fun v => regular v = true) visits.

(** The directories [getFilesToCopy] walks: those [os.Stat] does not
    report missing. *)
Definition walked (os : OS) (d : string) : bool :=
  negb (IsNotExist (snd (os_Stat os d))).

Definition discovered (os : OS) (dirs : list string) : list string :=
  concat ((fun d => if walked os d then regular_files (filepath_Walk os d)
                    else []) <$> dirs).

Definition dir_warnings (os : OS) (dirs : list string) : list string :=
  (fun d => "[WARNING] Dir " +:+ dq +:+ d +:+ dq +:+ " not found" +:+ nl)
    <$> filter (fun d => walked os d = false) dirs.

Definition discovery_calls (os : OS) (dirs : list string) : list syscall :=
  concat ((fun d => SysStat d :: if walked os d then [SysWalk d] else [])
            <$> dirs).

(** The path of a regular file some walked directory of [dirs] yields. *)
Definition discoverable (os : OS) (dirs : list string) (path : string) : Prop :=
  exists d v, d ∈ dirs /\ walked os d = true /\
              v ∈ filepath_Walk os d /\ regular v = true /\ wv_path v = path.

(** Broken-down times whose fields fit two digits. *)
Definition two_digit_fields (t : Time) : Prop :=
  0 <= Month t < 100 /\ 0 <= Day t < 100 /\ 0 <= Hour t < 100 /\
  0 <= Minute t < 100 /\ 0 <= Sec t < 100.

(** A world with two directories, the second one missing. *)
Definition stat_one_missing (path : string) : option FileInfo * option error :=
  if String.eqb path "/gone" then (None, Some not_found) else stat_ok path.

Definition two_dirs_conf : Configuration :=
  {| Directories := ["/data"; "/gone"];
     GoogleCloud := {| NameBucket := "backups"; PathJSONKey := "key.json" |} |}.

Definition two_dirs_state : pstate :=
  {| ps_globals := {| fileConf := "conf.yaml"; conf := two_dirs_conf;
                      totalFilesToCopy := 0; filesToCopy := [] |};
     ps_stdout := []; ps_calls := [] |}.

Definition two_dirs_world : OS :=
  world ["gcs-backup"; "-config"; "conf.yaml"] stat_one_missing demo_env.

(** An instant one hour after [demo_time] at which the local clock reads
    the same (the hour that is repeated when daylight-saving time ends). *)
Definition demo_time2 : Time :=
  {| Year := 2024; Month := 3; Day := 9; Hour := 14; Minute := 5; Sec := 0;
     UnixNano := 3600 * Second |}.

(** The upload the manifest entry [n] gets: none when the file is
    missing or cannot be opened, else one writer on the object
    [pathBase + path] of the bucket. *)
Definition upload_of (E : Z -> file_env) (bucket pathBase : string)
    (files : list string) (n : Z) : list (string * string) :=
  match index files n with
  | Some path =>
      if present_openable (E n) then [(bucket, pathBase +:+ path)] else []
  | None => []
  end.

(** The state after [added] was appended to the manifest. *)
Definition with_files (added : list string) (st : pstate) : pstate :=
  {| ps_globals :=
       {| fileConf := fileConf (ps_globals st);
          conf := conf (ps_globals st);
          totalFilesToCopy :=
            totalFilesToCopy (ps_globals st) + Z.of_nat (length added);
          filesToCopy := filesToCopy (ps_globals st) ++ added |};
     ps_stdout := ps_stdout st;
     ps_calls := ps_calls st |}.

(** The state after [lines] were printed and [calls] were made. *)
Definition with_output (lines : list string) (calls : list syscall)
    (st : pstate) : pstate :=
  {| ps_globals := ps_globals st;
     ps_stdout := ps_stdout st ++ lines;
     ps_calls := ps_calls st ++ calls |}.

(** A directory whose walk fails at its second entry. *)
Definition failing_walk_world : OS :=
  {| os_Args := ["gcs-backup"; "-config"; "conf.yaml"];
     os_Stat := stat_ok;
     ioutil_ReadFile := fun _ => ("googleCloud: ...", None);
     yaml_Unmarshal := fun _ => (demo_conf, None);
     flag_Parse := fun a d => inl d;
     filepath_Walk := fun root =>
       [ {| wv_path := root +:+ "/a";
            wv_info := Some {| Size := 12; IsDir := false |};
            wv_err := None |};
         {| wv_path := root +:+ "/locked";
            wv_info := None;
            wv_err := Some permission_denied |};
         {| wv_path := root +:+ "/z";
            wv_info := Some {| Size := 12; IsDir := false |};
            wv_err := None |} ];
     storage_NewClient := fun _ => None;
     time_Now := demo_time;
     time_Since := "1.5s";
     upload_env := fun _ => noErr |}.

(** The line the manifest entry [n] gets on standard output: a warning
    when the file is missing, the [OK] line when it is transferred, and
    none otherwise. *)
Definition line_of (E : Z -> file_env) (pathBase : string)
    (files : list string) (n : Z) : list string :=
  match index files n with
  | Some path =>
      if missing (E n) then
        ["[WARNING] File " +:+ dq +:+ path +:+ dq +:+ " not found" +:+ nl]
      else if transferred (E n) then
        ["[OK] File " +:+ dq +:+ pathBase +:+ path +:+ dq
         +:+ " copied successfully" +:+ nl]
      else []
  | None => []
  end.

(** * Theorems *)

(** ** The dispatch loop *)

Lemma round_div_nonneg (m : Z) :
  0 <= m -> round_div m processFilesForGoRoutine = (m + 10) / 20.
Proof.
  intros Hm. unfold round_div, processFilesForGoRoutine.
  destruct (Z.leb_spec 0 m) as [_|?]; [|lia].
  replace (2 * m + 20) with ((m + 10) * 2) by lia.
  replace (2 * 20) with (20 * 2) by lia.
  apply Z.div_mul_cancel_r; lia.
Qed.

Lemma round_div_nearest (m : Z) :
  0 <= m ->
  let r := round_div m processFilesForGoRoutine in
  20 * r - 10 <= m < 20 * r + 10.
Proof.
  intros Hm r. subst r. rewrite round_div_nonneg by done.
  pose proof (Z.div_mod (m + 10) 20 ltac:(lia)).
  pose proof (Z.mod_pos_bound (m + 10) 20 ltac:(lia)). lia.
Qed.

Lemma goRoutines_nonneg (m : Z) :
  0 <= m -> goRoutines m = Z.max 1 (round_div m processFilesForGoRoutine).
Proof.
  intros Hm. unfold goRoutines.
  pose proof (round_div_nearest m Hm) as Hr. simpl in Hr.
  destruct (Z.eqb_spec (round_div m processFilesForGoRoutine) 0) as [->|]; lia.
Qed.

Lemma goRoutines_bounds (m : Z) :
  0 <= m ->
  1 <= goRoutines m /\
  (goRoutines m = 1 \/ 20 * (goRoutines m - 1) + 10 <= m).
Proof.
  intros Hm. rewrite goRoutines_nonneg by done.
  pose proof (round_div_nearest m Hm) as Hr. simpl in Hr. lia.
Qed.

Lemma dispatch_loop_length W len k i s e :
  length (dispatch_loop W len k i s e) = k.
Proof.
  revert i s e. induction k as [|k IH]; intros i s e; simpl; [done|].
  destruct (if W =? 1 then _ else _) as [s' e']. simpl. by rewrite IH.
Qed.

Lemma dispatch_loop_S W len k i s e :
  dispatch_loop W len (S k) i s e =
  let u :=
    if W =? 1 then (0, len - 1)
    else if i =? 0 then (0, processFilesForGoRoutine - 1)
    else if i =? W - 1 then (e + 1, len - 1)
    else (e + 1, (e + 1 + processFilesForGoRoutine) - 1) in
  u :: dispatch_loop W len k (i + 1) (fst u) (snd u).
Proof.
  simpl. by destruct (if W =? 1 then _ else _).
Qed.

(** From the second iteration on, in the case of several goroutines. *)
Lemma dispatch_loop_tiles W len :
  2 <= W -> 20 * (W - 1) <= len - 1 ->
  forall k i s,
    1 <= i -> i + Z.of_nat (S k) = W ->
    tiles 20 (20 * i) (len - 1) (dispatch_loop W len (S k) i s (20 * i - 1)).
Proof.
  intros HW Hlen. induction k as [|k IH]; intros i s Hi Hk.
  - simpl. destruct (Z.eqb_spec W 1); [lia|].
    destruct (Z.eqb_spec i 0); [lia|].
    destruct (Z.eqb_spec i (W - 1)); [|lia].
    replace (20 * i - 1 + 1) with (20 * i) by lia.
    apply tiles_last. nia.
  - rewrite dispatch_loop_S. destruct (Z.eqb_spec W 1); [lia|].
    destruct (Z.eqb_spec i 0); [lia|].
    destruct (Z.eqb_spec i (W - 1)); [lia|].
    unfold processFilesForGoRoutine. cbn [fst snd].
    replace (20 * i - 1 + 1) with (20 * i) by lia.
    replace (20 * i + 20 - 1) with (20 * (i + 1) - 1) at 2 by lia.
    apply tiles_cons.
    replace (20 * i + 20) with (20 * (i + 1)) by lia.
    apply IH; lia.
Qed.

Lemma work_units_tiles (M : Z) :
  1 <= M -> tiles 20 0 (M - 1) (work_units M M).
Proof.
  intros HM. unfold work_units.
  destruct (goRoutines_bounds M ltac:(lia)) as [HW1 HW].
  destruct (Z.eq_dec (goRoutines M) 1) as [E1|NE1].
  - rewrite E1. simpl. apply tiles_last. lia.
  - destruct HW as [?|HW]; [done|].
    destruct (Z.to_nat (goRoutines M)) as [|[|k]] eqn:Ek; [lia|lia|].
    rewrite dispatch_loop_S.
    destruct (Z.eqb_spec (goRoutines M) 1); [lia|].
    rewrite Z.eqb_refl. unfold processFilesForGoRoutine. cbn [fst snd].
    change (20 - 1) with (0 + 20 - 1). apply tiles_cons.
    change (0 + 20 - 1) with (20 * 1 - 1). change (0 + 20) with (20 * 1).
    change (0 + 1) with 1.
    apply dispatch_loop_tiles; lia.
Qed.

(** What [tiles] gives. *)
Lemma tiles_nonempty B lo hi us : tiles B lo hi us -> us <> [].
Proof. by destruct 1. Qed.

Lemma tiles_head B lo hi us :
  tiles B lo hi us -> exists e, us !! 0%nat = Some (lo, e).
Proof. destruct 1; simpl; eauto. Qed.

Lemma tiles_end B lo hi us :
  tiles B lo hi us -> exists s, last us = Some (s, hi).
Proof.
  induction 1 as [lo hi H|lo hi us H [s IH]]; [by exists lo|].
  exists s. destruct us; [by inversion H|]. done.
Qed.

Lemma tiles_bounds B lo hi us :
  0 < B -> tiles B lo hi us ->
  forall i s e, us !! i = Some (s, e) -> lo <= s /\ s <= e /\ e <= hi.
Proof.
  intros HB. induction 1 as [lo hi H|lo hi us H IH]; intros i s e Hi.
  - destruct i; simpl in Hi; [|done]. simplify_eq. lia.
  - destruct i; simpl in Hi.
    + simplify_eq. destruct (tiles_head _ _ _ _ H) as [e0 He0].
      specialize (IH _ _ _ He0). lia.
    + specialize (IH _ _ _ Hi). lia.
Qed.

Lemma tiles_adjacent B lo hi us :
  tiles B lo hi us ->
  forall i s e s' e',
    us !! i = Some (s, e) -> us !! S i = Some (s', e') -> s' = e + 1.
Proof.
  induction 1 as [lo hi H|lo hi us H IH]; intros i s e s' e' Hi Hj.
  - by destruct i.
  - destruct i; simpl in Hi, Hj.
    + simplify_eq. destruct (tiles_head _ _ _ _ H) as [e0 He0].
      rewrite He0 in Hj. simplify_eq. lia.
    + eauto.
Qed.

Lemma tiles_full_batches B lo hi us :
  tiles B lo hi us ->
  forall i s e,
    us !! i = Some (s, e) -> (S i < length us)%nat -> e - s + 1 = B.
Proof.
  induction 1 as [lo hi H|lo hi us H IH]; intros i s e Hi Hlt.
  - simpl in Hlt. lia.
  - destruct i; simpl in Hi, Hlt.
    + simplify_eq. lia.
    + apply (IH i); [done|lia].
Qed.

Lemma tiles_disjoint B lo hi us :
  0 < B -> tiles B lo hi us ->
  forall i j s e s' e' n,
    us !! i = Some (s, e) -> us !! j = Some (s', e') ->
    s <= n <= e -> s' <= n <= e' -> i = j.
Proof.
  intros HB. induction 1 as [lo hi H|lo hi us H IH];
    intros i j s e s' e' n Hi Hj Hn Hn'.
  - destruct i, j; simpl in *; done.
  - destruct i, j; simpl in Hi, Hj; [done| | |f_equal; eauto].
    + simplify_eq. pose proof (tiles_bounds _ _ _ _ HB H _ _ _ Hj). lia.
    + simplify_eq. pose proof (tiles_bounds _ _ _ _ HB H _ _ _ Hi). lia.
Qed.

Lemma tiles_cover B lo hi us :
  0 < B -> tiles B lo hi us ->
  forall n, lo <= n <= hi <->
            exists i s e, us !! i = Some (s, e) /\ s <= n <= e.
Proof.
  intros HB. induction 1 as [lo hi H|lo hi us H IH]; intros n.
  - split.
    + intros Hn. by exists 0%nat, lo, hi.
    + intros (i & s & e & Hi & Hn). destruct i; simpl in Hi; [|done].
      by simplify_eq.
  - split.
    + intros Hn. destruct (Z_lt_le_dec n (lo + B)) as [Hlt|Hge].
      * exists 0%nat, lo, (lo + B - 1). simpl. split; [done|lia].
      * destruct (proj1 (IH n) ltac:(lia)) as (i & s & e & Hi & Hn').
        by exists (S i), s, e.
    + intros (i & s & e & Hi & Hn). destruct i; simpl in Hi.
      * simplify_eq. destruct (tiles_head _ _ _ _ H) as [e0 He0].
        pose proof (tiles_bounds _ _ _ _ HB H _ _ _ He0). lia.
      * pose proof (tiles_bounds _ _ _ _ HB H _ _ _ Hi). lia.
Qed.

(** C1.  For a manifest of [M >= 1] files and the batch size 20, the
    dispatch loop of [copyFiles] starts [W] goroutines, where [W] is
    [M/20] rounded to the nearest integer and raised to 1 when that is 0.
    Their ranges start at 0, end at [M-1], follow one another without gap
    ([start] of the next is [end + 1]), are non-empty, hold exactly 20
    indices each except the last (which takes the remainder), are
    pairwise disjoint, and cover exactly [0 .. M-1].  45 files give
    [0,19] and [20,44]; 5 files give [0,4]. *)
Theorem partition_covers_manifest (M : Z) :
  1 <= M ->
  let W := goRoutines M in
  let r := round_div M processFilesForGoRoutine in
  let us := work_units M M in
  W = Z.max 1 r
  /\ 20 * r - 10 <= M < 20 * r + 10
  /\ Z.of_nat (length us) = W
  /\ (exists e, us !! 0%nat = Some (0, e))
  /\ (exists s, last us = Some (s, M - 1))
  /\ (forall i s e, us !! i = Some (s, e) -> 0 <= s /\ s <= e /\ e <= M - 1)
  /\ (forall i s e s' e',
        us !! i = Some (s, e) -> us !! S i = Some (s', e') -> s' = e + 1)
  /\ (forall i s e,
        us !! i = Some (s, e) -> (S i < length us)%nat ->
        e - s + 1 = processFilesForGoRoutine)
  /\ (forall i j s e s' e' n,
        us !! i = Some (s, e) -> us !! j = Some (s', e') ->
        s <= n <= e -> s' <= n <= e' -> i = j)
  /\ (forall n, 0 <= n <= M - 1 <->
                exists i s e, us !! i = Some (s, e) /\ s <= n <= e)
  /\ work_units 45 45 = [(0, 19); (20, 44)]
  /\ work_units 5 5 = [(0, 4)].
Proof.
  intros HM W r us.
  pose proof (work_units_tiles M HM) as Ht. fold us in Ht.
  assert (0 < 20) as HB by lia.
  split; [apply goRoutines_nonneg; lia|].
  split; [apply round_div_nearest; lia|].
  split.
  { subst us. unfold work_units. rewrite dispatch_loop_length.
    destruct (goRoutines_bounds M ltac:(lia)). subst W. lia. }
  split; [by eapply tiles_head|].
  split; [by eapply tiles_end|].
  split; [by eapply tiles_bounds|].
  split; [by eapply tiles_adjacent|].
  split; [by eapply tiles_full_batches|].
  split; [by eapply tiles_disjoint|].
  split; [by eapply tiles_cover|].
  split; reflexivity.
Qed.

Lemma partition_covers_manifest_witness :
  1 <= 45 /\
  Z.of_nat (length (work_units 45 45)) = goRoutines 45.
Proof.
  split; [lia|].
  pose proof (partition_covers_manifest 45 ltac:(lia)) as H.
  simpl in H. apply H.
Defined.

(** ** Counting and the thread list *)

Lemma count_if_nonneg f p : 0 <= count_if f p.
Proof. induction p as [|a p IH]; simpl; [lia|]. destruct (f a); lia. Qed.

Lemma count_if_app f p q : count_if f (p ++ q) = count_if f p + count_if f q.
Proof. induction p as [|a p IH]; simpl; lia. Qed.

Lemma pending_nonneg f ths : 0 <= pending f ths.
Proof.
  unfold pending. induction ths as [|th ths IH]; simpl; [lia|].
  pose proof (count_if_nonneg f (prog th)). lia.
Qed.

Lemma pending_insert f ths t th th' :
  ths !! t = Some th ->
  pending f (<[t := th']> ths) =
  pending f ths - count_if f (prog th) + count_if f (prog th').
Proof.
  unfold pending. revert t. induction ths as [|x ths IH]; intros t Ht; [done|].
  destruct t; simpl in *.
  - simplify_eq. lia.
  - rewrite (IH t Ht). lia.
Qed.

Lemma pending_lookup_le f ths t th :
  ths !! t = Some th -> count_if f (prog th) <= pending f ths.
Proof.
  unfold pending. revert t. induction ths as [|x ths IH]; intros t Ht; [done|].
  destruct t; simpl in *.
  - simplify_eq. pose proof (pending_nonneg f ths). unfold pending in *. lia.
  - specialize (IH t Ht). pose proof (count_if_nonneg f (prog x)). lia.
Qed.

Lemma pending_zero f ths t th :
  pending f ths = 0 -> ths !! t = Some th -> count_if f (prog th) = 0.
Proof.
  intros H0 Ht. pose proof (pending_lookup_le f _ _ _ Ht).
  pose proof (count_if_nonneg f (prog th)). lia.
Qed.

Lemma pending_pos_exists f ths :
  pending f ths <> 0 ->
  exists t th, ths !! t = Some th /\ count_if f (prog th) <> 0.
Proof.
  unfold pending. induction ths as [|x ths IH]; simpl; [done|]. intros H.
  destruct (Z.eq_dec (count_if f (prog x)) 0) as [E0|NE].
  - destruct IH as (t & th & Ht & Hc); [lia|]. by exists (S t), th.
  - by exists 0%nat, x.
Qed.

Lemma remaining_insert c t th th' s' :
  threads c !! t = Some th ->
  (remaining {| threads := <[t := th']> (threads c); sh := s' |}
   + length (prog th) = remaining c + length (prog th'))%nat.
Proof.
  unfold remaining. simpl. generalize (threads c). clear c.
  intros ths. revert t. induction ths as [|x ths IH]; intros t Ht; [done|].
  destruct t; simpl in *.
  - simplify_eq. lia.
  - specialize (IH t Ht). lia.
Qed.

(** ** Well-formed programs *)

Lemma wf_out_app p q : wf_out p -> wf_out q -> wf_out (p ++ q).
Proof.
  induction 1; intros Hq; simpl; [done| |].
  - apply wf_incr. auto.
  - apply wf_plain; auto.
Qed.

Lemma wf_out_locked_incr k r : wf_out r -> wf_out (locked_incr k ++ r).
Proof. intros. simpl. by apply wf_incr. Qed.

Lemma ends_done_tail a p : ends_done (a :: p) -> ends_done p.
Proof.
  intros [?|H]; [done|]. destruct p; [by left|]. right. exact H.
Qed.

Lemma ends_done_count p : ends_done p -> p <> [] -> 1 <= count_if is_done p.
Proof.
  intros [?|H] Hne; [done|]. clear Hne.
  induction p as [|a p IH]; [done|].
  destruct p as [|b p].
  - simpl in H. simplify_eq. simpl. lia.
  - specialize (IH H).
    change (count_if is_done (a :: b :: p))
      with ((if is_done a then 1 else 0) + count_if is_done (b :: p)).
    destruct (is_done a); lia.
Qed.

Lemma wf_cs_frame s s' l p :
  totalFilesOK s' = totalFilesOK s ->
  totalFilesError s' = totalFilesError s ->
  wf_cs s l p -> wf_cs s' l p.
Proof.
  intros Hok Herr [k r Hr|k r Hreg Hr|r Hr].
  - by apply wf_cs_load.
  - apply wf_cs_store; [|done]. rewrite Hreg. by destruct k.
  - by apply wf_cs_unlock.
Qed.

(** What a plain action does to the shared state. *)
Lemma exec_plain a l s :
  plain a = true ->
  exists l' s',
    exec a l s = Some (l', s') /\
    mutex s' = mutex s /\
    totalFilesOK s' = totalFilesOK s /\
    totalFilesError s' = totalFilesError s /\
    (is_done a = false -> wg s' = wg s /\ crashed s' = crashed s) /\
    (is_done a = true -> 0 < wg s -> wg s' = wg s - 1 /\ crashed s' = crashed s).
Proof.
  intros Hp.
  destruct a as [n [path|]|path|line|msg|n path [e|]|n c|b o c|n e|n e
                 | |k|k| |n|n| ]; simpl in Hp; try done;
    try (eexists _, _; split; [reflexivity|]; simpl; repeat split; intros; done).
  simpl. destruct (Z.leb_spec (wg s) 0).
  - eexists _, _; split; [reflexivity|]. simpl. repeat split; intros; try done; exfalso; lia.
  - eexists _, _; split; [reflexivity|]. simpl. repeat split; intros; done.
Qed.

Lemma plain_not_store k a : plain a = true -> is_store k a = false.
Proof. by destruct a as [? []| | | |? ? []| | | | | |[]|[]| | | | ], k. Qed.

(** ** The invariant is kept by every step *)

Lemma count_if_cons f a p :
  count_if f (a :: p) = (if f a then 1 else 0) + count_if f p.
Proof. done. Qed.

Lemma plain_step_shared c t th a rest l' s' :
  threads c !! t = Some th ->
  prog th = a :: rest ->
  plain a = true ->
  wg (sh c) = pending is_done (threads c) ->
  exec a (loc th) (sh c) = Some (l', s') ->
  let ths' := <[t := {| prog := rest; loc := l' |}]> (threads c) in
  crashed s' = crashed (sh c) /\
  mutex s' = mutex (sh c) /\
  totalFilesOK s' = totalFilesOK (sh c) /\
  totalFilesError s' = totalFilesError (sh c) /\
  wg s' = pending is_done ths' /\
  forall k, pending (is_store k) ths' = pending (is_store k) (threads c).
Proof.
  intros Ht Hp Hpl Hwg Hex ths'.
  destruct (exec_plain a (loc th) (sh c) Hpl)
    as (l2 & s2 & Hex2 & Hmu & Hok & Herr & Hnd & Hd).
  rewrite Hex in Hex2. simplify_eq.
  assert (forall k, pending (is_store k) ths' = pending (is_store k) (threads c))
    as Hst.
  { intros k. subst ths'. rewrite (pending_insert _ _ _ _ _ Ht). simpl.
    rewrite Hp, count_if_cons, (plain_not_store k a Hpl). lia. }
  assert (pending is_done ths' =
          pending is_done (threads c) - (if is_done a then 1 else 0)) as Hpd.
  { subst ths'. rewrite (pending_insert _ _ _ _ _ Ht). simpl.
    rewrite Hp, count_if_cons. lia. }
  destruct (is_done a) eqn:Hda.
  - pose proof (pending_lookup_le is_done _ _ _ Ht) as Hle.
    rewrite Hp, count_if_cons, Hda in Hle.
    pose proof (count_if_nonneg is_done rest).
    destruct Hd as [Hw Hc]; [done|lia|].
    repeat split; try done. lia.
  - destruct Hnd as [Hw Hc]; [done|].
    repeat split; try done. lia.
Qed.

Lemma step_inv TOK TERR t c c' :
  Inv TOK TERR c -> step t c = Some c' -> Inv TOK TERR c'.
Proof.
  intros [Hal Hmu Hok Herr Hwg Hdn] Hstep.
  unfold step in Hstep. rewrite Hal in Hstep.
  destruct (threads c !! t) as [th|] eqn:Ht; [|done].
  destruct (prog th) as [|a rest] eqn:Hp; [done|].
  destruct (exec a (loc th) (sh c)) as [[l' s']|] eqn:Hex; [|done].
  simplify_eq.
  assert (forall t' th', <[t:={| prog := rest; loc := l' |}]> (threads c) !! t'
                         = Some th' -> ends_done (prog th')) as Hdn'.
  { intros t' th' Hl. apply list_lookup_insert_Some in Hl as [(-> & <- & _)|[? Hl]].
    - simpl. eapply ends_done_tail. rewrite <- Hp. eauto.
    - eauto. }
  destruct (mutex (sh c)) eqn:Hm.
  - destruct Hmu as (h & thh & Hh & Hcs & Hoth).
    destruct (decide (t = h)) as [->|Hne].
    + assert (thh = th) as -> by congruence. clear Hh. rewrite Hp in Hcs.
      assert (h < length (threads c))%nat as Hlen by (by eapply lookup_lt_Some).
      inversion Hcs as [k r Hr|k r Hreg Hr|r Hr]; subst; simpl in Hex; simplify_eq.
      * (* Load *)
        split; simpl; try done.
        -- rewrite Hm. eexists h, _. split; [by apply list_lookup_insert_eq|].
           split; [by apply wf_cs_store|].
           intros t' th' Hl Hne. rewrite list_lookup_insert_ne in Hl by done. eauto.
        -- rewrite (pending_insert _ _ _ _ _ Ht). simpl. rewrite Hp. simpl. lia.
        -- rewrite (pending_insert _ _ _ _ _ Ht). simpl. rewrite Hp. simpl. lia.
        -- rewrite (pending_insert _ _ _ _ _ Ht). simpl. rewrite Hp. simpl. lia.
      * (* Store *)
        split; simpl.
        -- by destruct k.
        -- replace (mutex (set_counter k (reg (loc th) + 1) (sh c))) with true
             by (by destruct k).
           eexists h, _. split; [by apply list_lookup_insert_eq|].
           split; [by apply wf_cs_unlock|].
           intros t' th' Hl Hne. rewrite list_lookup_insert_ne in Hl by done. eauto.
        -- rewrite (pending_insert _ _ _ _ _ Ht). simpl. rewrite Hp.
           destruct k; simpl in *; lia.
        -- rewrite (pending_insert _ _ _ _ _ Ht). simpl. rewrite Hp.
           destruct k; simpl in *; lia.
        -- rewrite (pending_insert _ _ _ _ _ Ht). simpl. rewrite Hp.
           destruct k; simpl in *; lia.
        -- done.
      * (* Unlock *)
        rewrite Hm in Hex. simplify_eq.
        split; simpl; try done.
        -- intros t' th' Hl.
           apply list_lookup_insert_Some in Hl as [(-> & <- & _)|[? Hl]]; [done|].
           eapply Hoth; eauto.
        -- rewrite (pending_insert _ _ _ _ _ Ht). simpl. rewrite Hp. simpl. lia.
        -- rewrite (pending_insert _ _ _ _ _ Ht). simpl. rewrite Hp. simpl. lia.
        -- rewrite (pending_insert _ _ _ _ _ Ht). simpl. rewrite Hp. simpl. lia.
    + pose proof (Hoth _ _ Ht Hne) as Hwf. rewrite Hp in Hwf.
      inversion Hwf as [|k r Hr|a' r Hpl Hr]; subst.
      * simpl in Hex. by rewrite Hm in Hex.
      * destruct (plain_step_shared c t th a rest l' s' Ht Hp Hpl Hwg Hex)
          as (Hc & Hmu' & Hok' & Herr' & Hwg' & Hst').
        split; simpl; try done.
        -- congruence.
        -- rewrite Hmu', Hm. exists h, thh.
           split; [by rewrite list_lookup_insert_ne|].
           split; [by eapply wf_cs_frame|].
           intros t' th' Hl Hne'.
           apply list_lookup_insert_Some in Hl as [(-> & <- & _)|[? Hl]]; [done|].
           eauto.
        -- rewrite Hst'. lia.
        -- rewrite Hst'. lia.
  - rename Hmu into Hall.
    pose proof (Hall _ _ Ht) as Hwf. rewrite Hp in Hwf.
    assert (t < length (threads c))%nat as Hlen by (by eapply lookup_lt_Some).
    inversion Hwf as [|k r Hr|a' r Hpl Hr]; subst.
    + (* Lock *)
      simpl in Hex. rewrite Hm in Hex. simplify_eq.
      split; simpl; try done.
      * eexists t, _. split; [by apply list_lookup_insert_eq|].
        split; [by apply wf_cs_load|].
        intros t' th' Hl Hne. rewrite list_lookup_insert_ne in Hl by done. eauto.
      * rewrite (pending_insert _ _ _ _ _ Ht). simpl. rewrite Hp. simpl. lia.
      * rewrite (pending_insert _ _ _ _ _ Ht). simpl. rewrite Hp. simpl. lia.
      * rewrite (pending_insert _ _ _ _ _ Ht). simpl. rewrite Hp. simpl. lia.
    + destruct (plain_step_shared c t th a rest l' s' Ht Hp Hpl Hwg Hex)
        as (Hc & Hmu' & Hok' & Herr' & Hwg' & Hst').
      split; simpl; try done.
      * congruence.
      * rewrite Hmu', Hm. intros t' th' Hl.
        apply list_lookup_insert_Some in Hl as [(-> & <- & _)|[? Hl]]; [done|].
        eauto.
      * rewrite Hst'. lia.
      * rewrite Hst'. lia.
Qed.

Lemma run_inv TOK TERR sched c c' :
  Inv TOK TERR c -> run sched c = Some c' -> Inv TOK TERR c'.
Proof.
  revert c. induction sched as [|t sched IH]; intros c HI Hrun; simpl in Hrun.
  - by simplify_eq.
  - destruct (step t c) as [c1|] eqn:Hs; [|done].
    eapply IH; [|done]. by eapply step_inv.
Qed.

(** ** The programs of the goroutines *)

Section Programs.
Variable E : Z -> file_env.
Variable ctx : Context.
Variable bucket pathBase : string.
Variable files : list string.

Local Abbreviation body := (file_body E ctx bucket pathBase).
Local Abbreviation loop := (worker_loop E ctx bucket pathBase files).

Lemma file_body_wf n path : wf_out (body n path).
Proof.
  unfold file_body.
  destruct (IsNotExist (fe_stat (E n))), (fe_open (E n)), (fe_copy (E n)), (fe_close (E n));
    repeat first [apply wf_nil | apply wf_incr | apply wf_plain; [done|]].
Qed.

Lemma file_body_stores_ok n path :
  count_if (is_store FilesOK) (body n path) = b2z (transferred (E n)).
Proof.
  unfold file_body, transferred, present_openable, missing.
  by destruct (IsNotExist (fe_stat (E n))), (fe_open (E n)), (fe_copy (E n)), (fe_close (E n)).
Qed.

Lemma file_body_stores_error n path :
  count_if (is_store FilesError) (body n path) = b2z (transfer_failed (E n)).
Proof.
  unfold file_body, transfer_failed, present_openable, missing.
  by destruct (IsNotExist (fe_stat (E n))), (fe_open (E n)), (fe_copy (E n)), (fe_close (E n)).
Qed.

Lemma file_body_no_done n path : count_if is_done (body n path) = 0.
Proof.
  unfold file_body.
  by destruct (IsNotExist (fe_stat (E n))), (fe_open (E n)), (fe_copy (E n)), (fe_close (E n)).
Qed.

Lemma index_in_range n :
  0 <= n < Z.of_nat (length files) -> exists path, index files n = Some path.
Proof.
  intros Hn. unfold index. destruct (Z.ltb_spec n 0); [lia|].
  destruct (lookup_lt_is_Some_2 files (Z.to_nat n)) as [p Hp]; [lia|]. eauto.
Qed.

Lemma index_Some n path :
  index files n = Some path -> 0 <= n < Z.of_nat (length files).
Proof.
  unfold index. destruct (Z.ltb_spec n 0); [done|]. intros Hl.
  apply lookup_lt_Some in Hl. lia.
Qed.

Lemma worker_loop_S k n :
  loop (S k) n =
  AIndex n (index files n) ::
  match index files n with
  | None => []
  | Some path => body n path ++ loop k (n + 1)
  end.
Proof. done. Qed.

Lemma worker_loop_wf k n :
  0 <= n -> n + Z.of_nat k <= Z.of_nat (length files) -> wf_out (loop k n).
Proof.
  revert n. induction k as [|k IH]; intros n H0 Hk; [apply wf_nil|].
  rewrite worker_loop_S.
  destruct (index_in_range n ltac:(lia)) as [path ->].
  apply wf_plain; [done|]. apply wf_out_app; [apply file_body_wf|].
  apply IH; lia.
Qed.

Lemma worker_loop_count f g k n :
  (forall m r, f (AIndex m r) = false) ->
  (forall m path, count_if f (body m path) = g m) ->
  0 <= n -> n + Z.of_nat k <= Z.of_nat (length files) ->
  count_if f (loop k n) = sum_from g n k.
Proof.
  intros Hf Hg. revert n. induction k as [|k IH]; intros n H0 Hk; [done|].
  rewrite worker_loop_S.
  destruct (index_in_range n ltac:(lia)) as [path ->].
  rewrite count_if_cons, Hf, count_if_app, Hg, IH by lia. simpl. lia.
Qed.

Lemma sum_from_zero lo k : sum_from (fun _ => 0) lo k = 0.
Proof. revert lo. induction k as [|k IH]; intros lo; simpl; [done|]. by rewrite IH. Qed.

Lemma goroutine_wf u :
  in_range files u -> wf_out (goroutine E ctx bucket pathBase files (fst u) (snd u)).
Proof.
  intros (H0 & H1 & H2). unfold goroutine. apply wf_out_app.
  - apply worker_loop_wf; lia.
  - apply wf_plain; [done|apply wf_nil].
Qed.

Lemma goroutine_ends_done s e :
  ends_done (goroutine E ctx bucket pathBase files s e).
Proof. right. unfold goroutine. apply last_snoc. Qed.

Lemma goroutine_count_done u :
  in_range files u ->
  count_if is_done (goroutine E ctx bucket pathBase files (fst u) (snd u)) = 1.
Proof.
  intros (H0 & H1 & H2). unfold goroutine. rewrite count_if_app.
  rewrite (worker_loop_count is_done (fun _ => 0)); try done; try lia.
  - by rewrite sum_from_zero.
  - apply file_body_no_done.
Qed.

Lemma goroutine_count_store k u :
  in_range files u ->
  count_if (is_store k) (goroutine E ctx bucket pathBase files (fst u) (snd u)) =
  sum_from (fun n => b2z ((match k with
                           | FilesOK => transferred
                           | FilesError => transfer_failed
                           end) (E n)))
           (fst u) (Z.to_nat (snd u - fst u + 1)).
Proof.
  intros (H0 & H1 & H2). unfold goroutine. rewrite count_if_app.
  rewrite (worker_loop_count (is_store k) (fun n => b2z ((match k with
                           | FilesOK => transferred
                           | FilesError => transfer_failed
                           end) (E n)))); try lia.
  - destruct k; simpl; lia.
  - by destruct k.
  - intros m path. destruct k;
      [apply file_body_stores_ok|apply file_body_stores_error].
Qed.

End Programs.

(** ** Sums over the ranges *)

Lemma sum_from_app f lo a b :
  sum_from f lo (a + b) = sum_from f lo a + sum_from f (lo + Z.of_nat a) b.
Proof.
  revert lo. induction a as [|a IH]; intros lo.
  - change (0 + b)%nat with b. change (Z.of_nat 0) with 0.
    rewrite Z.add_0_r. reflexivity.
  - change (S a + b)%nat with (S (a + b)). cbn [sum_from]. rewrite IH.
    replace (lo + 1 + Z.of_nat a) with (lo + Z.of_nat (S a)) by lia. lia.
Qed.

Lemma tiles_sum B lo hi us f :
  0 < B -> tiles B lo hi us ->
  sumZ (map (fun u => sum_from f (fst u) (Z.to_nat (snd u - fst u + 1))) us) =
  sum_from f lo (Z.to_nat (hi - lo + 1)).
Proof.
  intros HB. induction 1 as [lo hi H|lo hi us H IH]; simpl.
  - lia.
  - rewrite IH.
    destruct (tiles_head _ _ _ _ H) as [e0 He0].
    pose proof (tiles_bounds _ _ _ _ HB H _ _ _ He0).
    replace (Z.to_nat (hi - lo + 1))
      with (Z.to_nat (lo + B - 1 - lo + 1) + Z.to_nat (hi - (lo + B) + 1))%nat by lia.
    rewrite sum_from_app. do 2 f_equal. lia.
Qed.

(** The ranges the dispatch loop hands out, for any manifest. *)
Lemma work_units_in_range (files : list string) :
  let M := Z.of_nat (length files) in
  Forall (in_range files) (work_units M M).
Proof.
  intros M. destruct (Z.eq_dec M 0) as [E0|NE].
  - rewrite E0. repeat constructor; simpl; lia.
  - assert (1 <= M) as HM by lia.
    pose proof (work_units_tiles M HM) as Ht.
    apply Forall_lookup. intros i [s e] Hi.
    pose proof (tiles_bounds 20 _ _ _ ltac:(lia) Ht _ _ _ Hi).
    unfold in_range. simpl. lia.
Qed.

Lemma work_units_sum (m : nat) f :
  let M := Z.of_nat m in
  sumZ (map (fun u => sum_from f (fst u) (Z.to_nat (snd u - fst u + 1)))
            (work_units M M)) =
  sum_from f 0 m.
Proof.
  intros M. destruct (Z.eq_dec M 0) as [E0|NE].
  - rewrite E0. assert (m = 0%nat) as -> by lia. reflexivity.
  - assert (1 <= M) as HM by lia.
    rewrite (tiles_sum 20 0 (M - 1)); [|lia|by apply work_units_tiles].
    f_equal. lia.
Qed.

Lemma work_units_length (M : Z) :
  0 <= M -> Z.of_nat (length (work_units M M)) = goRoutines M.
Proof.
  intros HM. unfold work_units. rewrite dispatch_loop_length.
  destruct (goRoutines_bounds M HM). lia.
Qed.

(** ** The invariant holds when the goroutines are started *)

Section Spawn.
Variable E : Z -> file_env.
Variable bucket pathBase : string.
Variable files : list string.

Local Abbreviation M := (Z.of_nat (length files)).
Local Abbreviation c0 := (spawn E bucket pathBase M files).

Lemma spawn_lookup t th :
  threads c0 !! t = Some th ->
  exists u, work_units M M !! t = Some u /\ in_range files u /\
    th = {| prog := goroutine E Background bucket pathBase files (fst u) (snd u);
            loc := local0 |}.
Proof.
  unfold spawn. simpl. rewrite list_lookup_fmap. intros H.
  destruct (work_units M M !! t) as [u|] eqn:Hu; simpl in H; [|done].
  simplify_eq. exists u. split; [done|]. split; [|done].
  pose proof (work_units_in_range files) as Hall. simpl in Hall.
  eapply Forall_lookup in Hall; eauto.
Qed.

Lemma spawn_pending f g :
  (forall u, in_range files u ->
     count_if f (goroutine E Background bucket pathBase files (fst u) (snd u)) = g u) ->
  pending f (threads c0) = sumZ (map g (work_units M M)).
Proof.
  intros Hg. unfold spawn, pending. simpl.
  pose proof (work_units_in_range files) as Hall. simpl in Hall.
  induction Hall as [|u us Hu Hus IH]; [done|].
  rewrite fmap_cons. cbn [map sumZ foldr prog]. rewrite Hg by done.
  f_equal. exact IH.
Qed.

Lemma sumZ_ones {A} (l : list A) : sumZ (map (fun _ => 1) l) = Z.of_nat (length l).
Proof. induction l as [|x l IH]; simpl; lia. Qed.

Lemma spawn_inv :
  Inv (count_files transferred E (length files))
      (count_files transfer_failed E (length files)) c0.
Proof.
  split.
  - done.
  - simpl. intros t th Ht. apply spawn_lookup in Ht as (u & _ & Hu & ->).
    simpl. by apply goroutine_wf.
  - rewrite (spawn_pending _ _ (goroutine_count_store E Background bucket pathBase files FilesOK)).
    rewrite (work_units_sum (length files)). reflexivity.
  - rewrite (spawn_pending _ _ (goroutine_count_store E Background bucket pathBase files FilesError)).
    rewrite (work_units_sum (length files)). reflexivity.
  - rewrite (spawn_pending _ _ (goroutine_count_done E Background bucket pathBase files)).
    rewrite sumZ_ones. symmetry. apply work_units_length. lia.
  - intros t th Ht. apply spawn_lookup in Ht as (u & _ & Hu & ->).
    simpl. apply goroutine_ends_done.
Qed.

End Spawn.

(** ** What the invariant gives *)

Lemma inv_finished TOK TERR c :
  Inv TOK TERR c -> wg (sh c) = 0 ->
  totalFilesOK (sh c) = TOK /\ totalFilesError (sh c) = TERR /\
  forall t th, threads c !! t = Some th -> prog th = [].
Proof.
  intros [Hal Hmu Hok Herr Hwg Hdn] H0.
  assert (forall t th, threads c !! t = Some th -> prog th = []) as Hnil.
  { intros t th Ht. destruct (prog th) as [|a p] eqn:Hp; [done|]. exfalso.
    pose proof (Hdn _ _ Ht) as Hd. rewrite Hp in Hd.
    pose proof (ends_done_count _ Hd ltac:(done)) as H1.
    pose proof (pending_zero is_done (threads c) t th ltac:(lia) Ht) as Hz.
    rewrite Hp in Hz. lia. }
  assert (forall f, pending f (threads c) = 0) as Hpz.
  { intros f. unfold pending. revert Hnil. generalize (threads c). clear.
    intros ths Hnil. induction ths as [|x ths IH]; simpl; [done|].
    rewrite (Hnil 0%nat x eq_refl). simpl. rewrite IH; [done|].
    intros t th Ht. by apply (Hnil (S t)). }
  rewrite Hpz in Hok, Herr. repeat split; try lia. done.
Qed.

Lemma inv_bounds TOK TERR c :
  Inv TOK TERR c ->
  totalFilesOK (sh c) <= TOK /\ totalFilesError (sh c) <= TERR.
Proof.
  intros [Hal Hmu Hok Herr Hwg Hdn].
  pose proof (pending_nonneg (is_store FilesOK) (threads c)).
  pose proof (pending_nonneg (is_store FilesError) (threads c)). lia.
Qed.

(** A step never lowers a counter. *)
Lemma step_monotone TOK TERR t c c' :
  Inv TOK TERR c -> step t c = Some c' ->
  totalFilesOK (sh c) <= totalFilesOK (sh c') /\
  totalFilesError (sh c) <= totalFilesError (sh c').
Proof.
  intros HI Hs. pose proof (step_inv _ _ _ _ _ HI Hs) as HI'.
  destruct HI as [Hal Hmu Hok Herr Hwg Hdn].
  destruct HI' as [_ _ Hok' Herr' _ _].
  unfold step in Hs. rewrite Hal in Hs.
  destruct (threads c !! t) as [th|] eqn:Ht; [|done].
  destruct (prog th) as [|a rest] eqn:Hp; [done|].
  destruct (exec a (loc th) (sh c)) as [[l' s']|] eqn:Hex; [|done].
  simplify_eq. simpl in *.
  rewrite (pending_insert _ _ _ _ _ Ht) in Hok'.
  rewrite (pending_insert _ _ _ _ _ Ht) in Herr'. simpl in *.
  rewrite Hp, !count_if_cons in *.
  destruct (is_store FilesOK a), (is_store FilesError a); lia.
Qed.

Lemma run_monotone TOK TERR sched c c' :
  Inv TOK TERR c -> run sched c = Some c' ->
  totalFilesOK (sh c) <= totalFilesOK (sh c') /\
  totalFilesError (sh c) <= totalFilesError (sh c').
Proof.
  revert c. induction sched as [|t sched IH]; intros c HI Hrun; simpl in Hrun.
  - simplify_eq. lia.
  - destruct (step t c) as [c1|] eqn:Hs; [|done].
    pose proof (step_monotone _ _ _ _ _ HI Hs).
    pose proof (IH c1 (step_inv _ _ _ _ _ HI Hs) Hrun). lia.
Qed.

(** ** No deadlock, and every execution ends *)

Lemma inv_progress TOK TERR c :
  Inv TOK TERR c -> wg (sh c) <> 0 -> exists t c', step t c = Some c'.
Proof.
  intros [Hal Hmu Hok Herr Hwg Hdn] Hne. unfold step. rewrite Hal.
  destruct (mutex (sh c)) eqn:Hm.
  - destruct Hmu as (h & th & Hh & Hcs & _). exists h. rewrite Hh.
    inversion Hcs as [k r Hr Hp|k r Hreg Hr Hp|r Hr Hp]; simpl; eauto.
    rewrite Hm. eauto.
  - rewrite Hwg in Hne.
    destruct (pending_pos_exists _ _ Hne) as (t & th & Ht & Hc).
    exists t. rewrite Ht. pose proof (Hmu _ _ Ht) as Hwf.
    inversion Hwf as [Hp|k r Hr Hp|a r Hpl Hr Hp].
    + by rewrite <- Hp in Hc.
    + simpl. rewrite Hm. eauto.
    + destruct (exec_plain a (loc th) (sh c) Hpl) as (l' & s' & -> & _). eauto.
Qed.

Lemma step_remaining t c c' :
  step t c = Some c' -> remaining c = S (remaining c').
Proof.
  unfold step. destruct (crashed (sh c)); [done|].
  destruct (threads c !! t) as [th|] eqn:Ht; [|done].
  destruct (prog th) as [|a rest] eqn:Hp; [done|].
  destruct (exec a (loc th) (sh c)) as [[l' s']|]; [|done].
  intros ?; simplify_eq.
  pose proof (remaining_insert c t th {| prog := rest; loc := l' |} s' Ht) as H.
  rewrite Hp in H. simpl in H. lia.
Qed.

Lemma run_remaining sched c c' :
  run sched c = Some c' -> remaining c = (length sched + remaining c')%nat.
Proof.
  revert c. induction sched as [|t sched IH]; intros c Hrun; simpl in Hrun.
  - by simplify_eq.
  - destruct (step t c) as [c1|] eqn:Hs; [|done].
    rewrite (step_remaining _ _ _ Hs), (IH _ Hrun). simpl. lia.
Qed.

Lemma inv_completes TOK TERR c :
  Inv TOK TERR c ->
  exists sched c', run sched c = Some c' /\ wg (sh c') = 0.
Proof.
  remember (remaining c) as n eqn:Hn. revert c Hn.
  induction n as [n IH] using lt_wf_ind. intros c Hn HI.
  destruct (Z.eq_dec (wg (sh c)) 0) as [E0|NE].
  - by exists [], c.
  - destruct (inv_progress _ _ _ HI NE) as (t & c1 & Hs).
    pose proof (step_remaining _ _ _ Hs) as Hr.
    destruct (IH (remaining c1) ltac:(lia) c1 eq_refl (step_inv _ _ _ _ _ HI Hs))
      as (sched & c' & Hrun & Hz).
    exists (t :: sched), c'. simpl. by rewrite Hs.
Qed.

Lemma run_app s1 s2 c :
  run (s1 ++ s2) c = match run s1 c with Some c1 => run s2 c1 | None => None end.
Proof.
  revert c. induction s1 as [|t s1 IH]; intros c; simpl; [done|].
  by destruct (step t c).
Qed.

(** ** A goroutine on its own *)

Lemma exec_all_wf p :
  wf_out p ->
  forall l s,
    mutex s = false -> crashed s = false -> count_if is_done p <= wg s ->
    exists l' s',
      exec_all p l s = Some (l', s') /\
      mutex s' = false /\ crashed s' = false /\
      wg s' = wg s - count_if is_done p /\
      totalFilesOK s' = totalFilesOK s + count_if (is_store FilesOK) p /\
      totalFilesError s' = totalFilesError s + count_if (is_store FilesError) p.
Proof.
  induction 1 as [|k r Hr IH|a r Hpl Hr IH]; intros l s Hm Hc Hw.
  - exists l, s. simpl. repeat split; try done; lia.
  - cbn [exec_all exec]. rewrite Hm. cbn [exec_all exec mutex set_mutex].
    replace (mutex (set_counter k _ _)) with true by (by destruct k).
    set (s1 := set_mutex false _).
    destruct (IH (set_reg (counter_val k (set_mutex true s)) l) s1)
      as (l' & s' & Hex & Hm' & Hc' & Hw' & Hok' & Herr').
    { done. } { subst s1. by destruct k. }
    { subst s1. rewrite !count_if_cons in Hw. simpl in Hw. by destruct k. }
    exists l', s'. split; [done|]. rewrite !count_if_cons.
    subst s1. destruct k; simpl in *; repeat split; try done; lia.
  - cbn [exec_all].
    destruct (exec_plain a l s Hpl) as (l1 & s1 & Hex & Hm1 & Hok1 & Herr1 & Hnd & Hd).
    rewrite Hex. rewrite count_if_cons in Hw.
    pose proof (count_if_nonneg is_done r).
    assert (crashed s1 = false /\ wg s1 = wg s - (if is_done a then 1 else 0)) as [Hc1 Hw1].
    { destruct (is_done a).
      - destruct Hd; [done|lia|]. split; [congruence|lia].
      - destruct Hnd; [done|]. split; [congruence|lia]. }
    destruct (IH l1 s1) as (l' & s' & Hex' & Hm' & Hc' & Hw' & Hok' & Herr');
      [congruence|done|lia|].
    exists l', s'. split; [done|]. rewrite !count_if_cons.
    rewrite (plain_not_store FilesOK a Hpl), (plain_not_store FilesError a Hpl).
    repeat split; try done; lia.
Qed.

Lemma local_tally_count p :
  wf_out p -> count_if is_done p = 1 ->
  local_tally p =
  (count_if (is_store FilesOK) p, count_if (is_store FilesError) p).
Proof.
  intros Hwf Hd. unfold local_tally.
  destruct (exec_all_wf p Hwf local0 (shared0 1))
    as (l' & s' & -> & _ & _ & _ & Hok & Herr); try done.
  - simpl. lia.
  - simpl in Hok, Herr. by rewrite Hok, Herr.
Qed.

(** ** Reading the manifest *)

Lemma indexed_app p q : indexed (p ++ q) = indexed p ++ indexed q.
Proof.
  induction p as [|a p IH]; [done|]. destruct a; simpl; by rewrite ?IH.
Qed.

Lemma file_body_indexed E ctx bucket pathBase n path :
  indexed (file_body E ctx bucket pathBase n path) = [].
Proof.
  unfold file_body.
  by destruct (IsNotExist (fe_stat (E n))), (fe_open (E n)), (fe_copy (E n)),
       (fe_close (E n)).
Qed.






(** ** The set-up phase keeps the manifest and its length in step *)

Lemma preserves_ret P {A} (a : A) : preserves P (ret a).
Proof. intros st st' r HP H. unfold ret in H. by simplify_eq. Qed.

Lemma preserves_bind P {A B} (m : proc A) (k : A -> proc B) :
  preserves P m -> (forall a, preserves P (k a)) -> preserves P (bind m k).
Proof.
  intros Hm Hk st st' r HP H. unfold bind in H.
  destruct (m st) as [s1 [a|code|msg|]] eqn:Hms.
  - eapply Hk; [|exact H]. eapply Hm; eauto.
  - simplify_eq. eapply Hm; eauto.
  - simplify_eq. eapply Hm; eauto.
  - simplify_eq. eapply Hm; eauto.
Qed.

Lemma preserves_exit P {A} code : preserves P (@os_Exit A code).
Proof. intros st st' r HP H. unfold os_Exit in H. by simplify_eq. Qed.

Lemma preserves_panic P {A} msg : preserves P (@panic A msg).
Proof. intros st st' r HP H. unfold panic in H. by simplify_eq. Qed.

Lemma consistent_Printf line : preserves consistent (Printf line).
Proof. intros st st' r HP H. unfold Printf in H. by simplify_eq. Qed.

Lemma consistent_syscall c : preserves consistent (syscall_ c).
Proof. intros st st' r HP H. unfold syscall_ in H. by simplify_eq. Qed.

Lemma consistent_when b m :
  preserves consistent m -> preserves consistent (when b m).
Proof. intros Hm. destruct b; [done|apply preserves_ret]. Qed.

Lemma consistent_Stat os path : preserves consistent (Stat os path).
Proof.
  apply preserves_bind; [apply consistent_syscall|]. intros _. apply preserves_ret.
Qed.

Lemma consistent_add_file path : preserves consistent (add_file path).
Proof.
  intros st st' r HP H. unfold add_file, bind, get_globals, set_globals in H.
  simplify_eq. unfold consistent in *. simpl. rewrite length_app. simpl. lia.
Qed.

Lemma consistent_walk visits : preserves consistent (walk visits).
Proof.
  induction visits as [|v visits IH]; simpl; [apply preserves_ret|].
  apply preserves_bind.
  - unfold walk_callback. destruct (wv_err v); [apply preserves_ret|].
    apply preserves_bind.
    + unfold info_IsDir. destruct (wv_info v);
        [apply preserves_ret|apply preserves_panic].
    + intros d. apply preserves_bind; [|intros; apply preserves_ret].
      apply consistent_when, consistent_add_file.
  - intros [e|]; [apply preserves_ret|apply IH].
Qed.

Lemma consistent_getFilesToCopy os : preserves consistent (getFilesToCopy os).
Proof.
  unfold getFilesToCopy. apply preserves_bind; [by intros ? ? ? ? [= <- _]|].
  intros g. induction (Directories (conf g)) as [|d dirs IH]; simpl;
    [apply preserves_ret|].
  apply preserves_bind; [apply consistent_Stat|]. intros r.
  apply preserves_bind; [|intros _; apply IH].
  destruct (IsNotExist r.2); [apply consistent_Printf|].
  apply preserves_bind; [apply consistent_syscall|]. intros _.
  apply preserves_bind; [apply consistent_walk|]. intros [e|].
  - apply preserves_bind; [apply consistent_Printf|]. intros _.
    apply preserves_exit.
  - apply preserves_ret.
Qed.

Lemma consistent_set_conf cf : preserves consistent (set_conf cf).
Proof.
  intros st st' r HP H. unfold set_conf, bind, get_globals, set_globals in H.
  by simplify_eq.
Qed.

Lemma consistent_info_Size info : preserves consistent (info_Size info).
Proof. destruct info; [apply preserves_ret|apply preserves_panic]. Qed.

Lemma consistent_checkFileConf os : preserves consistent (checkFileConf os).
Proof.
  unfold checkFileConf. apply preserves_bind; [by intros ? ? ? ? [= <- _]|].
  intros g. apply preserves_bind; [apply consistent_Stat|]. intros [info err].
  apply preserves_bind.
  { apply consistent_when, preserves_bind; [apply consistent_Printf|].
    intros _. apply preserves_exit. }
  intros _. apply preserves_bind; [apply consistent_info_Size|]. intros sz.
  apply consistent_when, preserves_bind; [apply consistent_Printf|].
  intros _. apply preserves_exit.
Qed.

Lemma consistent_parseFileConf os : preserves consistent (parseFileConf os).
Proof.
  unfold parseFileConf. apply preserves_bind; [by intros ? ? ? ? [= <- _]|].
  intros g. apply preserves_bind; [apply consistent_syscall|]. intros _.
  destruct (ioutil_ReadFile os (fileConf g)) as [yamlFile err].
  apply preserves_bind.
  { destruct err; [|apply preserves_ret].
    apply preserves_bind; [apply consistent_Printf|]. intros _.
    apply preserves_exit. }
  intros _. apply preserves_bind; [apply consistent_syscall|]. intros _.
  destruct (yaml_Unmarshal os yamlFile) as [cf err'].
  apply preserves_bind; [apply consistent_set_conf|]. intros _.
  apply preserves_bind.
  { destruct err'; [|apply preserves_ret].
    apply preserves_bind; [apply consistent_Printf|]. intros _.
    apply preserves_exit. }
  intros _. apply preserves_bind; [apply consistent_Stat|]. intros [info e].
  apply preserves_bind.
  { apply consistent_when, preserves_bind; [apply consistent_Printf|].
    intros _. apply preserves_exit. }
  intros _. apply preserves_bind; [apply consistent_info_Size|]. intros sz.
  apply consistent_when, preserves_bind; [apply consistent_Printf|].
  intros _. apply preserves_exit.
Qed.

(** [copyFiles] is entered with [totalFilesToCopy = len(filesToCopy)]. *)
Lemma setup_consistent os :
  preserves consistent
    (checkFileConf os ;;; parseFileConf os ;;; getFilesToCopy os).
Proof.
  apply preserves_bind; [apply consistent_checkFileConf|]. intros _.
  apply preserves_bind; [apply consistent_parseFileConf|]. intros _.
  apply consistent_getFilesToCopy.
Qed.

(** ** Counting manifest entries *)

Lemma sum_from_add f g lo k :
  sum_from (fun n => f n + g n) lo k = sum_from f lo k + sum_from g lo k.
Proof.
  revert lo. induction k as [|k IH]; intros lo; simpl; [done|].
  rewrite IH. lia.
Qed.

Lemma sum_from_ext f g lo k :
  (forall n, f n = g n) -> sum_from f lo k = sum_from g lo k.
Proof.
  intros Hfg. revert lo. induction k as [|k IH]; intros lo; simpl; [done|].
  by rewrite IH, Hfg.
Qed.

Lemma sum_from_b2z_bounds (p : Z -> bool) lo k :
  0 <= sum_from (fun n => b2z (p n)) lo k <= Z.of_nat k.
Proof.
  revert lo. induction k as [|k IH]; intros lo; simpl sum_from; [lia|].
  specialize (IH (lo + 1)). destruct (p lo); simpl; lia.
Qed.

Lemma outcome_split e :
  b2z (transferred e) + b2z (transfer_failed e) = b2z (present_openable e).
Proof.
  unfold transferred, transfer_failed.
  destruct (present_openable e); simpl; [|done].
  destruct (fe_copy e), (fe_close e); done.
Qed.

Lemma count_files_split E m :
  count_files transferred E m + count_files transfer_failed E m =
  count_files present_openable E m.
Proof.
  unfold count_files. rewrite <- sum_from_add. apply sum_from_ext.
  intros n. apply outcome_split.
Qed.

Lemma count_files_bounds p E m : 0 <= count_files p E m <= Z.of_nat m.
Proof. apply (sum_from_b2z_bounds (fun n => p (E n))). Qed.

Lemma file_body_one_store E ctx bucket pathBase n path :
  count_if (is_store FilesOK) (file_body E ctx bucket pathBase n path) +
  count_if (is_store FilesError) (file_body E ctx bucket pathBase n path) <= 1.
Proof.
  rewrite file_body_stores_ok, file_body_stores_error, outcome_split.
  by destruct (present_openable (E n)).
Qed.

(** C3.  In every state an execution of the goroutines can reach, both
    counters are non-negative and [totalFilesOK + totalFilesError] is at
    most the number of manifest files; from there on no counter ever
    decreases; the actions for one file contain at most one counter
    increment; the execution can always be continued until the barrier
    opens; and once it has ([wg] is 0), [totalFilesOK + totalFilesError]
    is exactly the number of files that were present (the [os.Stat]
    re-check did not report not-exist) and could be opened. *)
Theorem counters_account_for_openable_files
    E bucket pathBase (files : list string) sched c :
  let M := Z.of_nat (length files) in
  run sched (spawn E bucket pathBase M files) = Some c ->
  0 <= totalFilesOK (sh c) /\ 0 <= totalFilesError (sh c)
  /\ totalFilesOK (sh c) + totalFilesError (sh c) <= M
  /\ (forall sched' c',
        run sched' c = Some c' ->
        totalFilesOK (sh c) <= totalFilesOK (sh c') /\
        totalFilesError (sh c) <= totalFilesError (sh c'))
  /\ (forall n path,
        count_if (is_store FilesOK)
          (file_body E Background bucket pathBase n path) +
        count_if (is_store FilesError)
          (file_body E Background bucket pathBase n path) <= 1)
  /\ (exists sched' c', run sched' c = Some c' /\ wg (sh c') = 0)
  /\ (wg (sh c) = 0 ->
      totalFilesOK (sh c) + totalFilesError (sh c) =
      count_files present_openable E (length files)).
Proof.
  intros M Hrun.
  pose proof (spawn_inv E bucket pathBase files) as HI0.
  pose proof (run_inv _ _ _ _ _ HI0 Hrun) as HI.
  pose proof (run_monotone _ _ _ _ _ HI0 Hrun) as Hmono. simpl in Hmono.
  pose proof (inv_bounds _ _ _ HI) as [Hok Herr].
  pose proof (count_files_split E (length files)) as Hsplit.
  pose proof (count_files_bounds present_openable E (length files)) as Hb.
  split; [lia|]. split; [lia|]. split; [subst M; lia|].
  split; [intros sched' c' Hrun'; by eapply run_monotone|].
  split; [intros n path; apply file_body_one_store|].
  split; [by eapply inv_completes|].
  intros H0. destruct (inv_finished _ _ _ HI H0) as (-> & -> & _). done.
Qed.

Lemma counters_account_for_openable_files_witness :
  totalFilesOK (sh demo_final) + totalFilesError (sh demo_final)
    <= Z.of_nat (length (manifest 45))
  /\ wg (sh demo_final) = 0
  /\ totalFilesOK (sh demo_final) + totalFilesError (sh demo_final) =
     count_files present_openable demo_env (length (manifest 45)).
Proof.
  assert (run demo_sched demo_start = Some demo_final) as Hrun
    by (vm_compute; reflexivity).
  assert (wg (sh demo_final) = 0) as Hwg by (vm_compute; reflexivity).
  destruct (counters_account_for_openable_files
              demo_env "backups" demo_prefix (manifest 45)
              demo_sched demo_final Hrun) as (_ & _ & Hle & _ & _ & _ & Hfin).
  split; [exact Hle|]. split; [exact Hwg|]. exact (Hfin Hwg).
Defined.

(** ** The private tallies *)

Lemma spawn_tally E bucket pathBase (files : list string) f g :
  (forall p, wf_out p -> count_if is_done p = 1 -> g (local_tally p) = count_if f p) ->
  sumZ (map (fun th => g (local_tally (prog th)))
            (threads (spawn E bucket pathBase (Z.of_nat (length files)) files))) =
  pending f (threads (spawn E bucket pathBase (Z.of_nat (length files)) files)).
Proof.
  intros Hg. unfold pending, spawn. simpl.
  pose proof (work_units_in_range files) as Hall. simpl in Hall.
  induction Hall as [|u us Hu Hus IH]; [done|].
  rewrite fmap_cons. cbn [map sumZ foldr prog]. rewrite Hg.
  - f_equal. exact IH.
  - by apply goroutine_wf.
  - by apply goroutine_count_done.
Qed.

(** C8.  In every execution, a goroutine that is about to write a
    counter holds the mutex and its register still equals the counter,
    so the write is an increment of the current value.  When the barrier
    opens, each shared counter equals the sum, over the goroutines, of
    what that goroutine counts when run alone from zero; hence
    [totalFilesOK + totalFilesError] is the sum of the private tallies. *)
Theorem locked_increments_lose_no_update
    E bucket pathBase (files : list string) sched c :
  let M := Z.of_nat (length files) in
  let c0 := spawn E bucket pathBase M files in
  let tally th := local_tally (prog th) in
  run sched c0 = Some c ->
  (forall t th k r,
     threads c !! t = Some th -> prog th = AStore k :: r ->
     mutex (sh c) = true /\ reg (loc th) = counter_val k (sh c))
  /\ (wg (sh c) = 0 ->
      totalFilesOK (sh c) = sumZ (map (fun th => fst (tally th)) (threads c0))
      /\ totalFilesError (sh c) = sumZ (map (fun th => snd (tally th)) (threads c0))
      /\ totalFilesOK (sh c) + totalFilesError (sh c) =
         sumZ (map (fun th => fst (tally th) + snd (tally th)) (threads c0))).
Proof.
  intros M c0 tally Hrun.
  pose proof (spawn_inv E bucket pathBase files) as HI0.
  pose proof (run_inv _ _ _ _ _ HI0 Hrun) as HI.
  split.
  - intros t th k r Ht Hp. destruct HI as [_ Hmu _ _ _ _].
    destruct (mutex (sh c)).
    + destruct Hmu as (h & thh & Hh & Hcs & Hoth).
      destruct (decide (t = h)) as [->|Hne].
      * assert (thh = th) as -> by congruence. rewrite Hp in Hcs.
        inversion Hcs; by subst.
      * specialize (Hoth _ _ Ht Hne). rewrite Hp in Hoth.
        inversion Hoth; by subst.
    + specialize (Hmu _ _ Ht). rewrite Hp in Hmu. inversion Hmu; by subst.
  - intros H0. destruct (inv_finished _ _ _ HI H0) as (Hok & Herr & _).
    assert (pending (is_store FilesOK) (threads c0) =
            count_files transferred E (length files)) as Hok0
      by (destruct HI0 as [_ _ Hp _ _ _]; exact Hp).
    assert (pending (is_store FilesError) (threads c0) =
            count_files transfer_failed E (length files)) as Herr0
      by (destruct HI0 as [_ _ _ Hp _ _]; exact Hp).
    assert (sumZ (map (fun th => fst (tally th)) (threads c0)) =
            pending (is_store FilesOK) (threads c0)) as H1.
    { apply spawn_tally. intros p Hwf Hd. by rewrite local_tally_count. }
    assert (sumZ (map (fun th => snd (tally th)) (threads c0)) =
            pending (is_store FilesError) (threads c0)) as H2.
    { apply spawn_tally. intros p Hwf Hd. by rewrite local_tally_count. }
    assert (sumZ (map (fun th => fst (tally th) + snd (tally th)) (threads c0)) =
            sumZ (map (fun th => fst (tally th)) (threads c0)) +
            sumZ (map (fun th => snd (tally th)) (threads c0))) as H3.
    { generalize (threads c0). intros l.
      induction l as [|x l IH]; simpl; [done|]. rewrite IH. lia. }
    rewrite H3, H1, H2. lia.
Qed.

Lemma locked_increments_lose_no_update_witness :
  totalFilesOK (sh demo_final) + totalFilesError (sh demo_final) =
  sumZ (map (fun th => fst (local_tally (prog th)) + snd (local_tally (prog th)))
            (threads demo_start))
  /\ wg (sh demo_final) = 0.
Proof.
  assert (run demo_sched demo_start = Some demo_final) as Hrun
    by (vm_compute; reflexivity).
  pose proof (locked_increments_lose_no_update
                demo_env "backups" demo_prefix (manifest 45)
                demo_sched demo_final Hrun) as [_ H].
  split; [apply H; reflexivity|reflexivity].
Defined.

(** ** One file at a time *)

Lemma exec_all_app p q l s :
  exec_all (p ++ q) l s =
  match exec_all p l s with
  | Some (l', s') => exec_all q l' s'
  | None => None
  end.
Proof.
  revert l s. induction p as [|a p IH]; intros l s; simpl; [done|].
  destruct (exec a l s) as [[l1 s1]|]; [apply IH|done].
Qed.

Lemma release_head n l : release n (n :: l) = l.
Proof. simpl. by rewrite Z.eqb_refl. Qed.

(** C4.  When the transfer of a file fails, in [io.Copy] or in
    [Writer.Close], the actions for that file end with
    [Lock; counter++ on totalFilesError; Unlock; cancel(); f.Close()];
    nothing before touches the mutex or a counter.  So the failure
    counter is incremented exactly once, under the lock, and the success
    counter not at all; run from a state with the mutex free, the actions
    add one to [totalFilesError], leave [totalFilesOK], the wait group
    and the crash flag alone, leave the mutex free, and give back the
    file handle and the timeout context; the goroutine then goes on with
    index [n + 1]. *)
Theorem transfer_failure_counted_once
    E bucket pathBase (files : list string) n path :
  index files n = Some path ->
  transfer_failed (E n) = true ->
  let body := file_body E Background bucket pathBase n path in
  (exists pre,
     body = pre ++ locked_incr FilesError ++ [ACancel n; AFileClose n] /\
     count_if is_sync pre = 0)
  /\ count_if (is_store FilesError) body = 1
  /\ count_if (is_store FilesOK) body = 0
  /\ (forall l s,
        mutex s = false ->
        exists l' s',
          exec_all body l s = Some (l', s') /\
          totalFilesError s' = totalFilesError s + 1 /\
          totalFilesOK s' = totalFilesOK s /\
          mutex s' = false /\ crashed s' = crashed s /\ wg s' = wg s /\
          open_files l' = open_files l /\ live_ctxs l' = live_ctxs l)
  /\ (forall k,
        worker_loop E Background bucket pathBase files (S k) n =
        AIndex n (Some path) ::
        body ++ worker_loop E Background bucket pathBase files k (n + 1)).
Proof.
  intros Hidx Hfail body.
  assert (count_if (is_store FilesError) body = 1) as Hone.
  { subst body. by rewrite file_body_stores_error, Hfail. }
  assert (count_if (is_store FilesOK) body = 0) as Hzero.
  { subst body. rewrite file_body_stores_ok.
    pose proof (outcome_split (E n)) as Hs. rewrite Hfail in Hs.
    destruct (transferred (E n)), (present_openable (E n));
      unfold b2z in *; lia. }
  assert (forall k,
        worker_loop E Background bucket pathBase files (S k) n =
        AIndex n (Some path) ::
        body ++ worker_loop E Background bucket pathBase files k (n + 1)) as Hnext.
  { intros k. by rewrite worker_loop_S, Hidx. }
  unfold transfer_failed, present_openable, missing in Hfail.
  subst body. unfold file_body in *.
  destruct (IsNotExist (fe_stat (E n))); [done|].
  destruct (fe_open (E n)) as [eo|]; [done|].
  destruct (fe_copy (E n)) as [ec|].
  - split; [eexists [_; _; _; _; _; _]; split; reflexivity|].
    do 2 (split; [done|]). split; [|done].
    intros l s Hm. cbn [exec_all exec locked_incr app]. rewrite Hm.
    cbn [exec_all exec mutex set_mutex set_counter]. eexists _, _.
    split; [reflexivity|]. simpl. rewrite !Z.eqb_refl. done.
  - destruct (fe_close (E n)) as [ecl|]; [|done].
    split; [eexists [_; _; _; _; _; _; _]; split; reflexivity|].
    do 2 (split; [done|]). split; [|done].
    intros l s Hm. cbn [exec_all exec locked_incr app]. rewrite Hm.
    cbn [exec_all exec mutex set_mutex set_counter]. eexists _, _.
    split; [reflexivity|]. simpl. rewrite !Z.eqb_refl. done.
Qed.

Lemma transfer_failure_counted_once_witness :
  count_if (is_store FilesError)
    (file_body demo_env Background "backups" demo_prefix 3 "/data/f3") = 1
  /\ count_if (is_store FilesError)
    (file_body demo_env Background "backups" demo_prefix 25 "/data/f25") = 1.
Proof.
  split.
  - apply (transfer_failure_counted_once demo_env "backups" demo_prefix
             (manifest 45) 3 "/data/f3"); reflexivity.
  - apply (transfer_failure_counted_once demo_env "backups" demo_prefix
             (manifest 45) 25 "/data/f25"); reflexivity.
Defined.



(** ** Log lines *)

(** C6 (the code departs from it).  For a file that cannot be opened,
    and for a file whose upload breaks off, the goroutine writes nothing
    to standard output: [fmt.Errorf] only builds an error value, which is
    dropped.  A whole run over the one-file manifest ends with an empty
    standard output in both cases (one failure counted in the second). *)
Theorem failed_files_leave_no_log_line :
  let body E := file_body E Background "backups" demo_prefix 0 "/data/f0" in
  let final E :=
    let c0 := spawn E "backups" demo_prefix 1 ["/data/f0"] in
    run (round_robin 100 0 c0) c0 in
  body unreadable_env =
    [AStat "/data/f0"; AOpen 0 "/data/f0" (Some permission_denied);
     AErrorf "os.Open: permission denied"]
  /\ printed (body unreadable_env) = []
  /\ printed (body broken_pipe_env) = []
  /\ (exists c, final unreadable_env = Some c /\ wg (sh c) = 0 /\
                stdout (sh c) = [] /\
                totalFilesOK (sh c) = 0 /\ totalFilesError (sh c) = 0)
  /\ (exists c, final broken_pipe_env = Some c /\ wg (sh c) = 0 /\
                stdout (sh c) = [] /\
                totalFilesOK (sh c) = 0 /\ totalFilesError (sh c) = 1).
Proof.
  cbv zeta. split; [reflexivity|]. split; [reflexivity|]. split; [reflexivity|].
  split; (eexists; split; [vm_compute; reflexivity|]; repeat split).
Qed.

(** ** Timeouts *)

Lemma deadlines_app p q : deadlines (p ++ q) = deadlines p ++ deadlines q.
Proof.
  induction p as [|a p IH]; [done|]. destruct a; simpl; by rewrite ?IH.
Qed.

Lemma file_body_deadlines E bucket pathBase n path d :
  d ∈ deadlines (file_body E Background bucket pathBase n path) ->
  d = (n, Some (fe_now (E n) + Second * 50)).
Proof.
  unfold file_body.
  destruct (IsNotExist (fe_stat (E n))), (fe_open (E n)), (fe_copy (E n)),
    (fe_close (E n)); simpl; intros Hd;
    repeat (apply elem_of_cons in Hd as [Hd|Hd]; [done|]);
    by apply elem_of_nil in Hd.
Qed.

Lemma worker_loop_deadlines E bucket pathBase files k s d :
  d ∈ deadlines (worker_loop E Background bucket pathBase files k s) ->
  d = (d.1, Some (fe_now (E d.1) + Second * 50)).
Proof.
  revert s. induction k as [|k IH]; intros s Hd.
  - by apply elem_of_nil in Hd.
  - rewrite worker_loop_S in Hd. cbn [deadlines] in Hd.
    destruct (index files s) as [path|]; [|by apply elem_of_nil in Hd].
    rewrite deadlines_app in Hd. apply elem_of_app in Hd as [Hd|Hd].
    + apply file_body_deadlines in Hd. by subst d.
    + by eapply IH.
Qed.

Lemma file_body_writer E bucket pathBase n path b o c :
  ANewWriter b o c ∈ file_body E Background bucket pathBase n path ->
  b = bucket /\ o = pathBase +:+ path /\
  c = WithTimeout Background (Second * 50) (fe_now (E n)).
Proof.
  unfold file_body.
  destruct (IsNotExist (fe_stat (E n))), (fe_open (E n)), (fe_copy (E n)),
    (fe_close (E n)); cbn [locked_incr app]; intros Hw;
    repeat (apply elem_of_cons in Hw as [Hw|Hw]; [by simplify_eq|]);
    by apply elem_of_nil in Hw.
Qed.

Lemma worker_loop_writer E bucket pathBase (files : list string) k s b o c :
  ANewWriter b o c ∈ worker_loop E Background bucket pathBase files k s ->
  exists n path,
    index files n = Some path /\ b = bucket /\ o = pathBase +:+ path /\
    c = WithTimeout Background (Second * 50) (fe_now (E n)).
Proof.
  revert s. induction k as [|k IH]; intros s Hw.
  - by apply elem_of_nil in Hw.
  - rewrite worker_loop_S in Hw.
    apply elem_of_cons in Hw as [Hw|Hw]; [done|].
    destruct (index files s) as [path|] eqn:Hidx; [|by apply elem_of_nil in Hw].
    apply elem_of_app in Hw as [Hw|Hw].
    + exists s, path. split; [done|]. by apply file_body_writer.
    + by eapply IH.
Qed.

(** C7, as the code has it.  The context of [copyFiles] is
    [context.Background()], which carries no deadline.  Every timeout
    context a goroutine creates has the deadline "clock reading of that
    file's own [context.WithTimeout] call, plus 50 seconds".  When the
    transfer of a file ends in an error (an expired deadline shows up as
    such an error of [io.Copy] or [Writer.Close]), that file is counted
    once as a failure and never as a success; cancelling gives back that
    file's context only; the actions for a file depend on the answers for
    that file alone; and the goroutine goes on with index [n + 1].  The
    transfer itself runs under that context: the writer of a file is
    opened on the context just created for it, right before [io.Copy],
    and every writer any goroutine opens carries the deadline of its own
    file, never the deadline-free parent. *)
Theorem transfer_deadline_is_per_file
    E bucket pathBase (files : list string) :
  let M := Z.of_nat (length files) in
  let c0 := spawn E bucket pathBase M files in
  let body E n path := file_body E Background bucket pathBase n path in
  Deadline Background = None
  /\ (forall t th n d,
        threads c0 !! t = Some th -> (n, d) ∈ deadlines (prog th) ->
        d = Some (fe_now (E n) + 50 * Second))
  /\ (forall n path e,
        present_openable (E n) = true ->
        fe_copy (E n) = Some e \/ fe_close (E n) = Some e ->
        count_if (is_store FilesError) (body E n path) = 1 /\
        count_if (is_store FilesOK) (body E n path) = 0)
  /\ (forall n path l s l' s',
        exec_all (body E n path) l s = Some (l', s') ->
        live_ctxs l' = live_ctxs l /\ open_files l' = open_files l)
  /\ (forall E' n path, E' n = E n -> body E' n path = body E n path)
  /\ (forall n path k,
        index files n = Some path ->
        worker_loop E Background bucket pathBase files (S k) n =
        AIndex n (Some path) ::
        body E n path ++ worker_loop E Background bucket pathBase files k (n + 1))
  /\ (forall n path,
        present_openable (E n) = true ->
        let ctx' := WithTimeout Background (Second * 50) (fe_now (E n)) in
        Deadline ctx' = Some (fe_now (E n) + 50 * Second) /\
        exists post,
          body E n path =
          [AStat path; AOpen n path None; AWithTimeout n ctx';
           ANewWriter bucket (pathBase +:+ path) ctx';
           ACopy n (fe_copy (E n))] ++ post)
  /\ (forall n path b o c,
        ANewWriter b o c ∈ body E n path ->
        c = WithTimeout Background (Second * 50) (fe_now (E n)) /\
        Deadline c = Some (fe_now (E n) + 50 * Second))
  /\ (forall t th b o c,
        threads c0 !! t = Some th -> ANewWriter b o c ∈ prog th ->
        exists n path,
          index files n = Some path /\ b = bucket /\
          o = pathBase +:+ path /\
          Deadline c = Some (fe_now (E n) + 50 * Second)).
Proof.
  intros M c0 body. split; [reflexivity|].
  split; [|split; [|split; [|split; [|split; [|split; [|split]]]]]].
  - intros t th n d Ht Hd. apply spawn_lookup in Ht as (u & _ & Hu & ->).
    simpl in Hd. unfold goroutine in Hd. rewrite deadlines_app in Hd.
    simpl in Hd. rewrite app_nil_r in Hd.
    apply worker_loop_deadlines in Hd. simpl in Hd. simplify_eq. f_equal; lia.
  - intros n path e Hpo Herr. subst body. cbv beta.
    rewrite file_body_stores_ok, file_body_stores_error.
    unfold transferred, transfer_failed. rewrite Hpo.
    destruct Herr as [-> | ->]; simpl.
    + done.
    + by destruct (fe_copy (E n)).
  - intros n path l s l' s'. subst body. cbv beta. unfold file_body.
    destruct s as [[|] w ok err out cr];
      destruct (IsNotExist (fe_stat (E n))), (fe_open (E n)), (fe_copy (E n)),
        (fe_close (E n)); simpl; intros Hex; simplify_eq; simpl;
      by rewrite ?Z.eqb_refl.
  - intros E' n path HE. subst body. cbv beta. unfold file_body. by rewrite HE.
  - intros n path k Hidx. by rewrite worker_loop_S, Hidx.
  - intros n path Hpo ctx'. split.
    + subst ctx'. unfold WithTimeout, WithDeadline. simpl. f_equal; lia.
    + subst body ctx'. cbv beta. unfold file_body.
      unfold present_openable, missing in Hpo.
      destruct (IsNotExist (fe_stat (E n))); [done|].
      destruct (fe_open (E n)); [done|]. eexists. reflexivity.
  - intros n path b o c Hw. subst body. cbv beta in Hw.
    apply file_body_writer in Hw as (_ & _ & ->). split; [done|].
    unfold WithTimeout, WithDeadline. simpl. f_equal; lia.
  - intros t th b o c Ht Hw. apply spawn_lookup in Ht as (u & _ & Hu & ->).
    simpl in Hw. unfold goroutine in Hw.
    apply elem_of_app in Hw as [Hw|Hw].
    + apply worker_loop_writer in Hw as (n & path & Hidx & -> & -> & ->).
      exists n, path. repeat split; try done;
        unfold WithTimeout, WithDeadline; simpl; f_equal; lia.
    + apply elem_of_cons in Hw as [Hw|Hw]; [done|]. by apply elem_of_nil in Hw.
Qed.

Lemma transfer_deadline_is_per_file_witness :
  count_if (is_store FilesError)
    (file_body demo_env Background "backups" demo_prefix 3 "/data/f3") = 1
  /\ count_if (is_store FilesOK)
    (file_body demo_env Background "backups" demo_prefix 3 "/data/f3") = 0.
Proof.
  pose proof (transfer_deadline_is_per_file demo_env "backups" demo_prefix
                (manifest 45)) as (_ & _ & Hfail & _).
  apply (Hfail 3 "/data/f3" deadline_exceeded); [reflexivity|left; reflexivity].
Defined.

(** C7 as stated fails: in a run started at instant 0, a file whose
    transfer starts at second 100 gets the deadline second 150, not
    "run start + 50 seconds". *)
Lemma deadline_is_not_run_start_plus_50s :
  let os := world ["gcs-backup"; "-config"; "conf.yaml"] stat_ok late_env in
  let run_start := UnixNano (time_Now os) in
  let c0 := spawn (upload_env os) "backups" (run_prefix (time_Now os)) 1
                  ["/data/f0"] in
  run_start = 0
  /\ (deadlines <$> (prog <$> threads c0)) = [[(0, Some (150 * Second))]]
  /\ 150 * Second <> run_start + 50 * Second.
Proof. cbv zeta. split; [reflexivity|]. split; [reflexivity|]. done. Qed.

(** ** The entry point *)

(** C9.  Started without arguments ([os.Args] holds the program name
    only), [main] prints the usage line and exits with code 1.  Nothing
    else happens: no flag is registered or parsed, no file is inspected
    or read, and [fileConf] is never given its default [conf.yaml]. *)
Theorem bare_invocation_prints_usage os sched st prog :
  os_Args os = [prog] ->
  main os sched st =
  ({| ps_globals := ps_globals st;
      ps_stdout := ps_stdout st ++
                   ["Usage: " +:+ path_Base prog +:+ " -conf fileconf.yaml" +:+ nl];
      ps_calls := ps_calls st |},
   Exit 1).
Proof.
  intros Hargs. unfold main, usage, Args0. rewrite Hargs. reflexivity.
Qed.

Lemma bare_invocation_prints_usage_witness :
  main bare_world [] pstate0 =
  ({| ps_globals := globals0;
      ps_stdout := ["Usage: gcs-backup -conf fileconf.yaml" +:+ nl];
      ps_calls := [] |},
   Exit 1).
Proof.
  apply (bare_invocation_prints_usage bare_world [] pstate0
           "/usr/local/bin/gcs-backup").
  reflexivity.
Defined.

(** C10 (the code departs from it).  When [os.Stat] fails with an error
    other than not-exist, [checkFileConf] and [parseFileConf] go on to
    call [info.Size()] on the nil [FileInfo]: the process panics instead
    of ending with an error message.  Here the configuration file, and
    then the credential file, sit where [os.Stat] is denied. *)
Theorem stat_denied_reaches_nil_FileInfo sched :
  let nil_deref := "invalid memory address or nil pointer dereference" in
  os_Stat conf_denied_world "/srv/private/conf.yaml" = (None, Some permission_denied)
  /\ IsNotExist (Some permission_denied) = false
  /\ main conf_denied_world sched pstate0 =
     ({| ps_globals :=
           {| fileConf := "/srv/private/conf.yaml"; conf := emptyConfiguration;
              totalFilesToCopy := 0; filesToCopy := [] |};
         ps_stdout := [];
         ps_calls := [SysFlagParse; SysStat "/srv/private/conf.yaml"] |},
      Panic nil_deref)
  /\ (main key_denied_world sched pstate0).2 = Panic nil_deref
  /\ ps_calls (main key_denied_world sched pstate0).1 =
     [SysFlagParse; SysStat "conf.yaml"; SysReadFile "conf.yaml";
      SysUnmarshal; SysStat "key.json"].
Proof. cbv zeta. repeat split. Qed.

(** * Further properties *)

(** ** Every manifest entry is handled once *)

Lemma worker_loop_indexed_all E ctx bucket pathBase (files : list string) k n :
  0 <= n -> n + Z.of_nat k <= Z.of_nat (length files) ->
  indexed (worker_loop E ctx bucket pathBase files k n) = seqZ n (Z.of_nat k).
Proof.
  revert n. induction k as [|k IH]; intros n H0 Hk; [done|].
  rewrite worker_loop_S. cbn [indexed].
  destruct (index_in_range files n ltac:(lia)) as [path ->].
  rewrite indexed_app, file_body_indexed, IH by lia. simpl.
  rewrite (seqZ_cons n (Z.of_nat (S k))) by lia.
  do 2 f_equal; lia.
Qed.

Lemma goroutine_indexed_all E ctx bucket pathBase (files : list string) u :
  in_range files u ->
  indexed (goroutine E ctx bucket pathBase files (fst u) (snd u)) =
  seqZ (fst u) (snd u - fst u + 1).
Proof.
  intros (H0 & H1 & H2). unfold goroutine.
  rewrite indexed_app, worker_loop_indexed_all by lia. simpl.
  rewrite app_nil_r. f_equal. lia.
Qed.

Lemma tiles_seqZ B lo hi us :
  0 < B -> tiles B lo hi us ->
  concat ((fun u => seqZ (fst u) (snd u - fst u + 1)) <$> us) =
  seqZ lo (hi - lo + 1).
Proof.
  intros HB. induction 1 as [lo hi H|lo hi us H IH].
  - simpl. by rewrite app_nil_r.
  - rewrite fmap_cons. cbn [concat fst snd]. rewrite IH.
    destruct (tiles_head _ _ _ _ H) as [e0 He0].
    pose proof (tiles_bounds _ _ _ _ HB H _ _ _ He0).
    replace (lo + B - 1 - lo + 1) with B by lia.
    replace (hi - lo + 1) with (B + (hi - (lo + B) + 1)) by lia.
    rewrite (seqZ_app lo B (hi - (lo + B) + 1)) by lia. done.
Qed.

Lemma work_units_seqZ (M : Z) :
  0 <= M ->
  concat ((fun u => seqZ (fst u) (snd u - fst u + 1)) <$> work_units M M) =
  seqZ 0 M.
Proof.
  intros HM. destruct (Z.eq_dec M 0) as [->|NE]; [done|].
  rewrite (tiles_seqZ 20 0 (M - 1)); [|lia|apply work_units_tiles; lia].
  f_equal. lia.
Qed.

(** X1.  Taken in spawn order, the indices at which the goroutines read
    the manifest are exactly 0, 1, ..., M-1: every entry is read by one
    goroutine, once, and nothing else is read. *)
Theorem every_entry_read_once E bucket pathBase (files : list string) :
  let M := Z.of_nat (length files) in
  let reads :=
    concat ((fun th => indexed (prog th))
              <$> threads (spawn E bucket pathBase M files)) in
  reads = seqZ 0 M
  /\ NoDup reads
  /\ (forall n, n ∈ reads <-> 0 <= n < M).
Proof.
  intros M reads.
  assert (reads = seqZ 0 M) as Hr.
  { subst reads. rewrite <- (work_units_seqZ M) by lia.
    unfold spawn. simpl. rewrite <- list_fmap_compose. f_equal.
    apply Forall_fmap_ext_1.
    eapply Forall_impl; [apply (work_units_in_range files)|].
    intros u Hu. simpl. by apply goroutine_indexed_all. }
  rewrite Hr. split; [done|]. split; [apply NoDup_seqZ|].
  intros n. rewrite elem_of_seqZ. lia.
Qed.

(** ** Sizes of the ranges *)

Lemma tiles_lookup B lo hi us i s e :
  tiles B lo hi us -> us !! i = Some (s, e) ->
  s = lo + B * Z.of_nat i /\
  ((S i < length us)%nat -> e = s + B - 1) /\
  (S i = length us -> e = hi).
Proof.
  intros Ht. revert i. induction Ht as [lo hi H|lo hi us H IH]; intros i Hi.
  - destruct i; simpl in Hi; [|done]. simplify_eq. simpl. split; [lia|].
    split; [lia|done].
  - destruct i; simpl in Hi.
    + simplify_eq. simpl. split; [lia|]. split; [lia|].
      intros Hl. apply tiles_nonempty in H. destruct us; [done|]. simpl in Hl. lia.
    + destruct (IH _ Hi) as (Hs & Hm & Hl). simpl. split; [lia|].
      split; [intros; apply Hm; lia|intros; apply Hl; lia].
Qed.

(** X2.  For a manifest of [M >= 1] files the range of goroutine [i]
    starts at [20 * i]; every range but the last holds 20 indices; the
    last one ends at [M - 1] and holds between 10 and 29 indices when
    there are several goroutines, and all [M <= 29] files when there is
    one.  So no goroutine gets more than 29 files or fewer than 1. *)
Theorem range_sizes (M : Z) i s e :
  1 <= M ->
  work_units M M !! i = Some (s, e) ->
  let n := length (work_units M M) in
  s = 20 * Z.of_nat i
  /\ 1 <= e - s + 1 <= 29
  /\ ((S i < n)%nat -> e - s + 1 = 20)
  /\ (S i = n -> e = M - 1)
  /\ ((2 <= n)%nat -> 10 <= e - s + 1)
  /\ (n = 1%nat -> M <= 29).
Proof.
  intros HM Hi n.
  pose proof (work_units_tiles M HM) as Ht.
  destruct (tiles_lookup _ _ _ _ _ _ _ Ht Hi) as (Hs & Hmid & Hlast).
  pose proof (work_units_length M ltac:(lia)) as Hlen. fold n in Hlen.
  pose proof (goRoutines_nonneg M ltac:(lia)) as HW.
  pose proof (round_div_nearest M ltac:(lia)) as Hr. simpl in Hr.
  pose proof (lookup_lt_Some _ _ _ Hi) as Hlt. fold n in Hlt.
  fold n in Hmid, Hlast.
  split; [lia|].
  destruct (decide (S i = n)) as [Hl|Hnl].
  - specialize (Hlast Hl). repeat split; try lia.
  - assert (S i < n)%nat as Hm by lia. specialize (Hmid Hm).
    repeat split; try lia.
Qed.

Lemma range_sizes_witness :
  1 <= 45 /\ work_units 45 45 !! 1%nat = Some (20, 44) /\ 10 <= 44 - 20 + 1.
Proof.
  assert (work_units 45 45 !! 1%nat = Some (20, 44)) as Hi by reflexivity.
  pose proof (range_sizes 45 1 20 44 ltac:(lia) Hi) as (_ & _ & _ & _ & H & _).
  split; [lia|]. split; [exact Hi|]. apply H. simpl. lia.
Defined.

(** ** Properties of single goroutines along an execution *)

(** A property of a goroutine's program and local state that each of its
    own actions keeps, holds along every execution. *)
Lemma step_thread_local (Q : thread -> Prop) t c c' :
  (forall a rest l s l' s',
     Q {| prog := a :: rest; loc := l |} ->
     exec a l s = Some (l', s') -> Q {| prog := rest; loc := l' |}) ->
  (forall i th, threads c !! i = Some th -> Q th) ->
  step t c = Some c' ->
  forall i th, threads c' !! i = Some th -> Q th.
Proof.
  intros HQ Hall Hstep i th' Hi. unfold step in Hstep.
  destruct (crashed (sh c)); [done|].
  destruct (threads c !! t) as [th|] eqn:Ht; [|done].
  destruct (prog th) as [|a rest] eqn:Hp; [done|].
  destruct (exec a (loc th) (sh c)) as [[l' s']|] eqn:Hex; [|done].
  simplify_eq. simpl in Hi.
  apply list_lookup_insert_Some in Hi as [(-> & <- & _)|[? Hi]]; [|eauto].
  eapply HQ; [|exact Hex]. specialize (Hall _ _ Ht).
  destruct th as [p l]. simpl in *. by subst p.
Qed.

Lemma run_thread_local (Q : thread -> Prop) sched c c' :
  (forall a rest l s l' s',
     Q {| prog := a :: rest; loc := l |} ->
     exec a l s = Some (l', s') -> Q {| prog := rest; loc := l' |}) ->
  (forall i th, threads c !! i = Some th -> Q th) ->
  run sched c = Some c' ->
  forall i th, threads c' !! i = Some th -> Q th.
Proof.
  intros HQ. revert c. induction sched as [|t sched IH]; intros c Hall Hrun;
    simpl in Hrun.
  - by simplify_eq.
  - destruct (step t c) as [c1|] eqn:Hs; [|done].
    eapply IH; [|exact Hrun]. by eapply step_thread_local.
Qed.

(** ** File handles and timeout contexts *)

Lemma exec_resources a l s l' s' :
  exec a l s = Some (l', s') -> resources l' = hold a (resources l).
Proof.
  destruct a as [n [path|]|path|line|msg|n path [e|]|n c|b o c|n e|n e
                 | |k|k| |n|n| ]; simpl; intros H;
    repeat match type of H with
           | context [if ?b then _ else _] => destruct b
           end; by simplify_eq.
Qed.

Lemma held_after_app p q r : held_after (p ++ q) r = held_after q (held_after p r).
Proof. revert r. induction p as [|a p IH]; intros r; simpl; [done|apply IH]. Qed.

Lemma peak_app p q r :
  peak (p ++ q) r = Nat.max (peak p r) (peak q (held_after p r)).
Proof.
  revert r. induction p as [|a p IH]; intros r; simpl.
  - destruct q; simpl; lia.
  - rewrite IH. lia.
Qed.

Lemma peak_ge_current p r :
  (Nat.max (length (fst r)) (length (snd r)) <= peak p r)%nat.
Proof. destruct p; simpl; lia. Qed.

Lemma file_body_held E ctx bucket pathBase n path r :
  held_after (file_body E ctx bucket pathBase n path) r = r.
Proof.
  unfold file_body. destruct r as [fs cs].
  destruct (IsNotExist (fe_stat (E n))), (fe_open (E n)), (fe_copy (E n)),
    (fe_close (E n)); simpl; by rewrite ?Z.eqb_refl.
Qed.

Lemma file_body_peak E ctx bucket pathBase n path :
  (peak (file_body E ctx bucket pathBase n path) ([], []) <= 1)%nat.
Proof.
  unfold file_body.
  destruct (IsNotExist (fe_stat (E n))), (fe_open (E n)), (fe_copy (E n)),
    (fe_close (E n)); simpl; rewrite ?Z.eqb_refl; simpl; lia.
Qed.

Lemma worker_loop_held E ctx bucket pathBase files k n r :
  held_after (worker_loop E ctx bucket pathBase files k n) r = r.
Proof.
  revert n. induction k as [|k IH]; intros n; [done|].
  rewrite worker_loop_S. cbn [held_after hold].
  destruct (index files n); [|done].
  by rewrite held_after_app, file_body_held.
Qed.

Lemma worker_loop_peak E ctx bucket pathBase files k n :
  (peak (worker_loop E ctx bucket pathBase files k n) ([], []) <= 1)%nat.
Proof.
  revert n. induction k as [|k IH]; intros n; [simpl; lia|].
  rewrite worker_loop_S. cbn [peak hold fst snd length].
  destruct (index files n); [|simpl; lia].
  rewrite peak_app, file_body_held.
  pose proof (file_body_peak E ctx bucket pathBase n s).
  specialize (IH (n + 1)). lia.
Qed.

(** X3.  Along every execution each goroutine has at most one file open
    and at most one timeout context alive; a goroutine that has finished
    holds none.  So at most [goRoutines] descriptors are open at any
    time, and when the barrier opens every file has been closed and
    every context cancelled. *)
Theorem handles_bounded_and_released
    E bucket pathBase (files : list string) sched c :
  let M := Z.of_nat (length files) in
  run sched (spawn E bucket pathBase M files) = Some c ->
  (forall t th,
     threads c !! t = Some th ->
     (length (open_files (loc th)) <= 1)%nat /\
     (length (live_ctxs (loc th)) <= 1)%nat /\
     (prog th = [] -> open_files (loc th) = [] /\ live_ctxs (loc th) = []))
  /\ (wg (sh c) = 0 ->
      forall t th, threads c !! t = Some th ->
                   open_files (loc th) = [] /\ live_ctxs (loc th) = []).
Proof.
  intros M Hrun.
  set (Q := fun th : thread =>
              held_after (prog th) (resources (loc th)) = ([], []) /\
              (peak (prog th) (resources (loc th)) <= 1)%nat).
  assert (forall t th, threads c !! t = Some th -> Q th) as HQ.
  { eapply (run_thread_local Q); [| |exact Hrun].
    - intros a rest l s l' s' HQ0 Hex. unfold Q in *. cbn [prog loc] in *.
      destruct HQ0 as [Hh Hp].
      rewrite (exec_resources _ _ _ _ _ Hex). split; [exact Hh|].
      cbn [peak] in Hp. lia.
    - intros t th Ht. apply spawn_lookup in Ht as (u & _ & _ & ->).
      unfold Q. cbn [prog loc]. change (resources local0) with ([] : list Z, [] : list Z).
      unfold goroutine. split.
      + by rewrite held_after_app, worker_loop_held.
      + rewrite peak_app, worker_loop_held.
        pose proof (worker_loop_peak E Background bucket pathBase files
                      (Z.to_nat (u.2 - u.1 + 1)) u.1).
        change (peak [ADone] ([], [])) with 0%nat. lia. }
  assert (forall t th,
     threads c !! t = Some th ->
     (length (open_files (loc th)) <= 1)%nat /\
     (length (live_ctxs (loc th)) <= 1)%nat /\
     (prog th = [] -> open_files (loc th) = [] /\ live_ctxs (loc th) = []))
    as Hall.
  { intros t th Ht. destruct (HQ _ _ Ht) as [Hh Hp].
    pose proof (peak_ge_current (prog th) (resources (loc th))) as Hc.
    simpl in Hc. split; [lia|]. split; [lia|].
    intros Hnil. rewrite Hnil in Hh. simpl in Hh. unfold resources in Hh.
    by simplify_eq. }
  split; [exact Hall|]. intros H0 t th Ht.
  pose proof (run_inv _ _ _ _ _ (spawn_inv E bucket pathBase files) Hrun) as HI.
  destruct (inv_finished _ _ _ HI H0) as (_ & _ & Hnil).
  apply (Hall _ _ Ht). eauto.
Qed.

Lemma handles_bounded_and_released_witness :
  Forall (fun th => open_files (loc th) = [] /\ live_ctxs (loc th) = [])
         (threads demo_final).
Proof.
  assert (run demo_sched demo_start = Some demo_final) as Hrun
    by (vm_compute; reflexivity).
  assert (wg (sh demo_final) = 0) as Hwg by (vm_compute; reflexivity).
  apply Forall_lookup.
  exact (proj2 (handles_bounded_and_released
                  demo_env "backups" demo_prefix (manifest 45)
                  demo_sched demo_final Hrun) Hwg).
Defined.

(** ** The mutex *)

Lemma wf_out_not_critical p : wf_out p -> in_critical_section p = false.
Proof. destruct 1 as [|k r Hr|a r Hpl Hr]; [done|done|]. by destruct a. Qed.

Lemma wf_cs_critical s l p : wf_cs s l p -> in_critical_section p = true.
Proof. by destruct 1. Qed.

(** X4.  In every state of every execution at most one goroutine is
    between [mutex.Lock()] and [mutex.Unlock()]; the mutex is locked
    exactly when some goroutine is, and that goroutine's next action is
    the load, the store or the unlock of its [counter++].  So no
    goroutine holds the lock while it stats, opens, copies or prints. *)
Theorem mutex_excludes E bucket pathBase (files : list string) sched c :
  let M := Z.of_nat (length files) in
  run sched (spawn E bucket pathBase M files) = Some c ->
  (forall t t' th th',
     threads c !! t = Some th -> threads c !! t' = Some th' ->
     in_critical_section (prog th) = true ->
     in_critical_section (prog th') = true -> t = t')
  /\ (mutex (sh c) = true <->
      exists t th, threads c !! t = Some th /\
                   in_critical_section (prog th) = true).
Proof.
  intros M Hrun.
  pose proof (run_inv _ _ _ _ _ (spawn_inv E bucket pathBase files) Hrun)
    as [_ Hmu _ _ _ _].
  destruct (mutex (sh c)).
  - destruct Hmu as (h & thh & Hh & Hcs & Hoth). split.
    + intros t t' th th' Ht Ht' Hc Hc'.
      destruct (decide (t = h)) as [->|Hne].
      * destruct (decide (t' = h)) as [->|Hne']; [done|].
        pose proof (wf_out_not_critical _ (Hoth _ _ Ht' Hne')). congruence.
      * pose proof (wf_out_not_critical _ (Hoth _ _ Ht Hne)). congruence.
    + split; [|done]. intros _. exists h, thh. split; [done|].
      by eapply wf_cs_critical.
  - split.
    + intros t t' th th' Ht Ht' Hc Hc'.
      pose proof (wf_out_not_critical _ (Hmu _ _ Ht)). congruence.
    + split; [done|]. intros (t & th & Ht & Hc).
      pose proof (wf_out_not_critical _ (Hmu _ _ Ht)). congruence.
Qed.

Lemma mutex_excludes_witness :
  mutex (sh demo_final) = true <->
  exists t th, threads demo_final !! t = Some th /\
               in_critical_section (prog th) = true.
Proof.
  assert (run demo_sched demo_start = Some demo_final) as Hrun
    by (vm_compute; reflexivity).
  exact (proj2 (mutex_excludes demo_env "backups" demo_prefix (manifest 45)
                  demo_sched demo_final Hrun)).
Defined.

(** ** The barrier *)

(** X5.  The goroutines never deadlock and always finish: a reachable
    state in which no goroutine can move has the wait-group counter at 0
    and every goroutine at its end, without a panic; and an execution of
    [k] steps leaves exactly [k] fewer actions to run, so no execution is
    longer than the number of actions the goroutines start with. *)
Theorem barrier_always_opens E bucket pathBase (files : list string) sched c :
  let M := Z.of_nat (length files) in
  let c0 := spawn E bucket pathBase M files in
  run sched c0 = Some c ->
  (remaining c0 = length sched + remaining c)%nat
  /\ ((forall t, step t c = None) ->
      wg (sh c) = 0 /\ crashed (sh c) = false /\
      forall t th, threads c !! t = Some th -> prog th = [])
  /\ (wg (sh c) = 0 -> forall t, step t c = None).
Proof.
  intros M c0 Hrun.
  pose proof (run_inv _ _ _ _ _ (spawn_inv E bucket pathBase files) Hrun) as HI.
  split; [by apply run_remaining|]. split.
  - intros Hstuck.
    destruct (Z.eq_dec (wg (sh c)) 0) as [H0|Hne].
    + split; [done|]. split; [apply HI|]. by eapply inv_finished.
    + destruct (inv_progress _ _ _ HI Hne) as (t & c' & Hs).
      rewrite Hstuck in Hs. done.
  - intros H0 t. destruct (inv_finished _ _ _ HI H0) as (_ & _ & Hnil).
    unfold step. destruct (crashed (sh c)); [done|].
    destruct (threads c !! t) as [th|] eqn:Ht; [|done].
    by rewrite (Hnil _ _ Ht).
Qed.

Lemma barrier_always_opens_witness :
  (remaining demo_start = length demo_sched + remaining demo_final)%nat.
Proof.
  assert (run demo_sched demo_start = Some demo_final) as Hrun
    by (vm_compute; reflexivity).
  exact (proj1 (barrier_always_opens demo_env "backups" demo_prefix (manifest 45)
                  demo_sched demo_final Hrun)).
Defined.

(** ** Lines on standard output *)

Lemma exec_stdout a l s l' s' :
  exec a l s = Some (l', s') ->
  Z.of_nat (length (stdout s')) =
  Z.of_nat (length (stdout s)) + (if is_print a then 1 else 0).
Proof.
  destruct a as [n [path|]|path|line|msg|n path [e|]|n c|b o c|n e|n e
                 | |k|k| |n|n| ]; simpl; intros H;
    repeat match type of H with
           | context [if ?b then _ else _] => destruct b
           end; simplify_eq; simpl; rewrite ?length_app; simpl; try lia;
    destruct k; simpl; lia.
Qed.

Lemma step_stdout t c c' :
  step t c = Some c' ->
  Z.of_nat (length (stdout (sh c'))) + pending is_print (threads c') =
  Z.of_nat (length (stdout (sh c))) + pending is_print (threads c).
Proof.
  unfold step. destruct (crashed (sh c)); [done|].
  destruct (threads c !! t) as [th|] eqn:Ht; [|done].
  destruct (prog th) as [|a rest] eqn:Hp; [done|].
  destruct (exec a (loc th) (sh c)) as [[l' s']|] eqn:Hex; [|done].
  intros ?; simplify_eq. simpl.
  rewrite (pending_insert _ _ _ _ _ Ht). simpl.
  rewrite Hp, count_if_cons, (exec_stdout _ _ _ _ _ Hex). lia.
Qed.

Lemma run_stdout sched c c' :
  run sched c = Some c' ->
  Z.of_nat (length (stdout (sh c'))) + pending is_print (threads c') =
  Z.of_nat (length (stdout (sh c))) + pending is_print (threads c).
Proof.
  revert c. induction sched as [|t sched IH]; intros c Hrun; simpl in Hrun.
  - by simplify_eq.
  - destruct (step t c) as [c1|] eqn:Hs; [|done].
    rewrite (IH _ Hrun). by apply (step_stdout t).
Qed.

Lemma file_body_prints E ctx bucket pathBase n path :
  count_if is_print (file_body E ctx bucket pathBase n path) = b2z (logged (E n)).
Proof.
  unfold file_body, logged, transferred, present_openable, missing.
  by destruct (IsNotExist (fe_stat (E n))), (fe_open (E n)), (fe_copy (E n)),
       (fe_close (E n)).
Qed.

Lemma goroutine_count_print E ctx bucket pathBase (files : list string) u :
  in_range files u ->
  count_if is_print (goroutine E ctx bucket pathBase files (fst u) (snd u)) =
  sum_from (fun n => b2z (logged (E n))) (fst u) (Z.to_nat (snd u - fst u + 1)).
Proof.
  intros (H0 & H1 & H2). unfold goroutine. rewrite count_if_app.
  rewrite (worker_loop_count _ _ _ _ _ is_print (fun n => b2z (logged (E n))));
    try lia; try done.
  - simpl. lia.
  - intros m path. apply file_body_prints.
Qed.

Lemma logged_split e :
  b2z (logged e) = b2z (missing e) + b2z (transferred e).
Proof.
  unfold logged, transferred, present_openable.
  by destruct (missing e), (fe_open e), (fe_copy e), (fe_close e).
Qed.

(** X6.  The goroutines write one line per uploaded file and one per
    missing file, and no line for a file that could not be opened or
    whose transfer failed: in every state the number of lines written is
    at most the number of such files, and when the barrier opens it is
    exactly [totalFilesOK] plus the number of missing files. *)
Theorem lines_written E bucket pathBase (files : list string) sched c :
  let M := Z.of_nat (length files) in
  run sched (spawn E bucket pathBase M files) = Some c ->
  Z.of_nat (length (stdout (sh c))) <= count_files logged E (length files)
  /\ (wg (sh c) = 0 ->
      Z.of_nat (length (stdout (sh c))) =
      totalFilesOK (sh c) + count_files missing E (length files)).
Proof.
  intros M Hrun. subst M.
  pose proof (run_stdout _ _ _ Hrun) as Hout.
  change (stdout (sh (spawn E bucket pathBase (Z.of_nat (length files)) files)))
    with ([] : list string) in Hout. simpl length in Hout.
  assert (pending is_print
            (threads (spawn E bucket pathBase (Z.of_nat (length files)) files)) =
          count_files logged E (length files)) as H0.
  { rewrite (spawn_pending _ _ _ _ _ _
               (goroutine_count_print E Background bucket pathBase files)).
    apply (work_units_sum (length files)). }
  rewrite H0 in Hout.
  pose proof (pending_nonneg is_print (threads c)).
  split; [lia|]. intros Hwg.
  pose proof (run_inv _ _ _ _ _ (spawn_inv E bucket pathBase files) Hrun) as HI.
  destruct (inv_finished _ _ _ HI Hwg) as (Hok & _ & Hnil).
  assert (pending is_print (threads c) = 0) as Hz.
  { unfold pending. revert Hnil. generalize (threads c). intros ths Hnil.
    induction ths as [|x ths IH]; simpl; [done|].
    rewrite (Hnil 0%nat x eq_refl). simpl. rewrite IH; [done|].
    intros t th Ht. by apply (Hnil (S t)). }
  rewrite Hok. unfold count_files in *.
  rewrite (sum_from_ext _ (fun n => b2z (missing (E n)) + b2z (transferred (E n))))
    in Hout by (intros; apply logged_split).
  rewrite sum_from_add in Hout. lia.
Qed.

Lemma lines_written_witness :
  Z.of_nat (length (stdout (sh demo_final))) =
  totalFilesOK (sh demo_final) + count_files missing demo_env (length (manifest 45)).
Proof.
  assert (run demo_sched demo_start = Some demo_final) as Hrun
    by (vm_compute; reflexivity).
  assert (wg (sh demo_final) = 0) as Hwg by (vm_compute; reflexivity).
  exact (proj2 (lines_written demo_env "backups" demo_prefix (manifest 45)
                  demo_sched demo_final Hrun) Hwg).
Defined.

(** ** Uploads *)

Lemma writers_app p q : writers (p ++ q) = writers p ++ writers q.
Proof.
  induction p as [|a p IH]; [done|]. destruct a; simpl; by rewrite ?IH.
Qed.

Lemma file_body_writers E ctx bucket pathBase n path :
  writers (file_body E ctx bucket pathBase n path) =
  if present_openable (E n) then [(bucket, pathBase +:+ path)] else [].
Proof.
  unfold file_body, present_openable, missing.
  by destruct (IsNotExist (fe_stat (E n))), (fe_open (E n)), (fe_copy (E n)),
       (fe_close (E n)).
Qed.

Lemma worker_loop_writers E ctx bucket pathBase (files : list string) k n :
  0 <= n -> n + Z.of_nat k <= Z.of_nat (length files) ->
  writers (worker_loop E ctx bucket pathBase files k n) =
  concat (upload_of E bucket pathBase files <$> seqZ n (Z.of_nat k)).
Proof.
  revert n. induction k as [|k IH]; intros n H0 Hk; [done|].
  rewrite worker_loop_S. cbn [writers].
  rewrite (seqZ_cons n (Z.of_nat (S k))) by lia.
  rewrite fmap_cons. cbn [concat]. unfold upload_of at 1.
  destruct (index_in_range files n ltac:(lia)) as [path ->].
  rewrite writers_app, file_body_writers, IH by lia.
  replace (Z.succ n) with (n + 1) by lia.
  replace (Z.pred (Z.of_nat (S k))) with (Z.of_nat k) by lia. done.
Qed.

Lemma goroutine_writers E ctx bucket pathBase (files : list string) u :
  in_range files u ->
  writers (goroutine E ctx bucket pathBase files (fst u) (snd u)) =
  concat (upload_of E bucket pathBase files
            <$> seqZ (fst u) (snd u - fst u + 1)).
Proof.
  intros (H0 & H1 & H2). unfold goroutine.
  rewrite writers_app, worker_loop_writers by lia. simpl.
  rewrite app_nil_r. do 3 f_equal. lia.
Qed.

Lemma concat_fmap_concat {A B} (f : A -> list B) (ls : list (list A)) :
  concat ((fun l => concat (f <$> l)) <$> ls) = concat (f <$> concat ls).
Proof.
  induction ls as [|l ls IH]; [done|].
  rewrite fmap_cons. cbn [concat]. rewrite IH, fmap_app, concat_app. done.
Qed.

(** X7.  Taken in spawn order, the objects the goroutines open for
    writing are: for every manifest index from 0 to M-1 whose file is
    present and can be opened, one object, in the configured bucket,
    named by the run prefix followed by the file's path; nothing for the
    other files, and nothing else. *)
Theorem uploads_are_the_openable_files E bucket pathBase (files : list string) :
  let M := Z.of_nat (length files) in
  concat ((fun th => writers (prog th))
            <$> threads (spawn E bucket pathBase M files)) =
  concat (upload_of E bucket pathBase files <$> seqZ 0 M).
Proof.
  intros M. subst M.
  rewrite <- (work_units_seqZ (Z.of_nat (length files))) by lia.
  rewrite <- concat_fmap_concat. rewrite <- list_fmap_compose.
  unfold spawn. simpl. rewrite <- list_fmap_compose. f_equal.
  apply Forall_fmap_ext_1.
  eapply Forall_impl; [apply (work_units_in_range files)|].
  intros u Hu. simpl. by apply goroutine_writers.
Qed.

(** X8.  When a file is transferred (it is present, opens, and neither
    [io.Copy] nor [Writer.Close] fails), the goroutine prints the [OK]
    line naming the object, then increments [totalFilesOK] under the
    lock, then cancels the context and closes the file.  Run with the
    mutex free, the actions add one to [totalFilesOK] and one line to
    standard output, leave [totalFilesError], the wait group and the
    mutex as they were, and give back handle and context; the goroutine
    goes on with index [n + 1]. *)
Theorem successful_upload_counted_once
    E bucket pathBase (files : list string) n path :
  index files n = Some path ->
  transferred (E n) = true ->
  let body := file_body E Background bucket pathBase n path in
  let line := "[OK] File " +:+ dq +:+ pathBase +:+ path +:+ dq
              +:+ " copied successfully" +:+ nl in
  (exists pre,
     body = pre ++ APrintf line :: locked_incr FilesOK
                ++ [ACancel n; AFileClose n] /\
     count_if is_sync pre = 0 /\ printed pre = [])
  /\ count_if (is_store FilesOK) body = 1
  /\ count_if (is_store FilesError) body = 0
  /\ (forall l s,
        mutex s = false ->
        exists l' s',
          exec_all body l s = Some (l', s') /\
          totalFilesOK s' = totalFilesOK s + 1 /\
          totalFilesError s' = totalFilesError s /\
          stdout s' = stdout s ++ [line] /\
          mutex s' = false /\ crashed s' = crashed s /\ wg s' = wg s /\
          open_files l' = open_files l /\ live_ctxs l' = live_ctxs l)
  /\ (forall k,
        worker_loop E Background bucket pathBase files (S k) n =
        AIndex n (Some path) ::
        body ++ worker_loop E Background bucket pathBase files k (n + 1)).
Proof.
  intros Hidx Hok body line.
  assert (forall k,
        worker_loop E Background bucket pathBase files (S k) n =
        AIndex n (Some path) ::
        body ++ worker_loop E Background bucket pathBase files k (n + 1)) as Hnext.
  { intros k. by rewrite worker_loop_S, Hidx. }
  unfold transferred, present_openable, missing in Hok.
  subst body line. unfold file_body in *.
  destruct (IsNotExist (fe_stat (E n))); [done|].
  destruct (fe_open (E n)) as [eo|]; [done|].
  destruct (fe_copy (E n)) as [ec|]; [done|].
  destruct (fe_close (E n)) as [ecl|]; [done|].
  split; [eexists [_; _; _; _; _; _]; repeat split; reflexivity|].
  do 2 (split; [done|]). split; [|done].
  intros l [m w ok err out cr] Hm. simpl in Hm. subst m.
  eexists _, _. split; [reflexivity|]. simpl. by rewrite !Z.eqb_refl.
Qed.

Lemma successful_upload_counted_once_witness :
  count_if (is_store FilesOK)
    (file_body demo_env Background "backups" demo_prefix 4 "/data/f4") = 1.
Proof.
  apply (successful_upload_counted_once demo_env "backups" demo_prefix
           (manifest 45) 4 "/data/f4"); reflexivity.
Defined.

(** ** Discovery: [filepath.Walk] and [getFilesToCopy] *)

Lemma with_files_nil st : with_files [] st = st.
Proof.
  destruct st as [[fc cf tot fs] out calls]. unfold with_files. simpl.
  by rewrite Z.add_0_r, app_nil_r.
Qed.

Lemma with_files_app a b st :
  with_files b (with_files a st) = with_files (a ++ b) st.
Proof.
  unfold with_files. simpl.
  by rewrite length_app, <- app_assoc, Nat2Z.inj_add, Z.add_assoc.
Qed.

Lemma with_output_nil st : with_output [] [] st = st.
Proof. destruct st. unfold with_output. simpl. by rewrite !app_nil_r. Qed.

Lemma with_output_app l1 c1 l2 c2 st :
  with_output l2 c2 (with_output l1 c1 st) = with_output (l1 ++ l2) (c1 ++ c2) st.
Proof. unfold with_output. simpl. by rewrite <- !app_assoc. Qed.

Lemma with_files_output fs l c st :
  with_files fs (with_output l c st) = with_output l c (with_files fs st).
Proof. done. Qed.

Lemma regular_files_cons v visits :
  regular_files (v :: visits) =
  (if regular v then [wv_path v] else []) ++ regular_files visits.
Proof.
  unfold regular_files. rewrite filter_cons.
  destruct (decide (regular v = true)) as [->|Hn]; [done|].
  by destruct (regular v).
Qed.

(** The callback on a visit it gets through. *)
Lemma walk_callback_passable v st :
  passable v ->
  walk_callback v st =
  (with_files (if regular v then [wv_path v] else []) st, Ret None).
Proof.
  intros [He Hi]. unfold walk_callback, regular. rewrite He.
  destruct (wv_info v) as [i|]; [|done]. simpl.
  unfold bind, info_IsDir, ret, when. simpl.
  destruct (IsDir i); simpl.
  - by rewrite with_files_nil.
  - done.
Qed.

Lemma walk_passable visits st :
  Forall passable visits ->
  walk visits st = (with_files (regular_files visits) st, Ret None).
Proof.
  intros Hall. revert st. induction Hall as [|v visits Hv Hall IH]; intros st.
  - simpl. unfold ret. by rewrite with_files_nil.
  - cbn [walk]. unfold bind at 1. rewrite (walk_callback_passable v st Hv).
    rewrite IH, with_files_app, regular_files_cons. done.
Qed.

Lemma walk_error pre v post e st :
  Forall passable pre -> wv_err v = Some e ->
  walk (pre ++ v :: post) st = (with_files (regular_files pre) st, Ret (Some e)).
Proof.
  intros Hall He. revert st. induction Hall as [|u pre Hu Hall IH]; intros st.
  - simpl. unfold bind, walk_callback. rewrite He. unfold ret.
    by rewrite with_files_nil.
  - cbn [walk app]. unfold bind at 1. rewrite (walk_callback_passable u st Hu).
    rewrite IH, with_files_app, regular_files_cons. done.
Qed.

Lemma discovery_step_missing os d rest st :
  walked os d = false ->
  getFilesToCopy_loop os (d :: rest) st =
  getFilesToCopy_loop os rest
    (with_output ["[WARNING] Dir " +:+ dq +:+ d +:+ dq +:+ " not found" +:+ nl]
                 [SysStat d] st).
Proof.
  intros Hw. unfold walked in Hw. apply negb_false_iff in Hw.
  cbn [getFilesToCopy_loop]. unfold bind, Stat, syscall_, ret. simpl.
  rewrite Hw. unfold Printf. simpl. done.
Qed.

Lemma discovery_step_walked os d rest st :
  walked os d = true ->
  Forall passable (filepath_Walk os d) ->
  getFilesToCopy_loop os (d :: rest) st =
  getFilesToCopy_loop os rest
    (with_output [] [SysStat d; SysWalk d]
       (with_files (regular_files (filepath_Walk os d)) st)).
Proof.
  intros Hw Hall. unfold walked in Hw. apply negb_true_iff in Hw.
  cbn [getFilesToCopy_loop]. unfold bind at 1 2. unfold Stat, syscall_, ret, bind at 1.
  simpl. rewrite Hw. unfold bind at 1 2. rewrite walk_passable by done.
  unfold ret. f_equal. unfold with_output, with_files. simpl.
  by rewrite app_nil_r, <- app_assoc.
Qed.

Lemma discovery_loop os dirs st :
  (forall d, d ∈ dirs -> walked os d = true ->
             Forall passable (filepath_Walk os d)) ->
  getFilesToCopy_loop os dirs st =
  (with_output (dir_warnings os dirs) (discovery_calls os dirs)
     (with_files (discovered os dirs) st), Ret tt).
Proof.
  revert st. induction dirs as [|d dirs IH]; intros st Hall.
  - simpl. unfold ret. by rewrite with_files_nil, with_output_nil.
  - assert (forall d', d' ∈ dirs -> walked os d' = true ->
                       Forall passable (filepath_Walk os d')) as Hall'.
    { intros d' Hd'. apply Hall. by apply list_elem_of_further. }
    unfold dir_warnings, discovery_calls, discovered.
    rewrite !fmap_cons, filter_cons. cbn [concat].
    destruct (walked os d) eqn:Hw.
    + rewrite discovery_step_walked; [|done|apply Hall; [apply list_elem_of_here|done]].
      rewrite IH by done.
      rewrite decide_False by done.
      rewrite with_files_output, with_files_app, with_output_app. done.
    + rewrite discovery_step_missing by done.
      rewrite IH by done. rewrite decide_True by done.
      rewrite fmap_cons, with_files_output, with_output_app. done.
Qed.

(** X9.  When every walk goes through (no visit carries an error and
    each has its [FileInfo]), [getFilesToCopy] returns normally and has
    appended to the manifest, directory by directory in configuration
    order and in visit order, the paths of exactly the non-directory
    entries of the directories that [os.Stat] does not report missing;
    [totalFilesToCopy] has grown by their number; each missing directory
    got one warning line and was not walked. *)
Theorem getFilesToCopy_collects_regular_files os st :
  let dirs := Directories (conf (ps_globals st)) in
  (forall d, d ∈ dirs -> walked os d = true ->
             Forall passable (filepath_Walk os d)) ->
  getFilesToCopy os st =
  (with_output (dir_warnings os dirs) (discovery_calls os dirs)
     (with_files (discovered os dirs) st), Ret tt).
Proof.
  intros dirs Hall. unfold getFilesToCopy, bind, get_globals.
  by apply discovery_loop.
Qed.

Lemma getFilesToCopy_collects_regular_files_witness :
  getFilesToCopy two_dirs_world two_dirs_state =
  ({| ps_globals := {| fileConf := "conf.yaml"; conf := two_dirs_conf;
                       totalFilesToCopy := 1; filesToCopy := ["/data/f0"] |};
      ps_stdout := ["[WARNING] Dir " +:+ dq +:+ "/gone" +:+ dq
                    +:+ " not found" +:+ nl];
      ps_calls := [SysStat "/data"; SysWalk "/data"; SysStat "/gone"] |},
   Ret tt).
Proof.
  rewrite (getFilesToCopy_collects_regular_files two_dirs_world two_dirs_state).
  - reflexivity.
  - intros d Hd Hw. repeat constructor; done.
Defined.

(** X10.  An error during a walk is fatal: when the walk of a directory
    reaches a visit that carries an error, [getFilesToCopy] prints
    [[ERROR]: <error>] and exits with code 1; the entries after it and
    the directories after this one are not looked at. *)
Theorem walk_error_is_fatal os d rest st pre v post e :
  walked os d = true ->
  filepath_Walk os d = pre ++ v :: post ->
  Forall passable pre ->
  wv_err v = Some e ->
  getFilesToCopy_loop os (d :: rest) st =
  (with_output ["[ERROR]: " +:+ Error e +:+ nl] [SysStat d; SysWalk d]
     (with_files (regular_files pre) st), Exit 1).
Proof.
  intros Hw Hvisits Hall He. unfold walked in Hw. apply negb_true_iff in Hw.
  cbn [getFilesToCopy_loop]. unfold bind at 1 2. unfold Stat, syscall_, ret, bind at 1.
  simpl. rewrite Hw. unfold bind at 1 2. rewrite Hvisits.
  rewrite (walk_error pre v post e) by done.
  unfold bind, Printf, os_Exit, with_output, with_files. simpl.
  by rewrite <- app_assoc.
Qed.

Lemma walk_error_is_fatal_witness :
  getFilesToCopy_loop failing_walk_world ["/data"; "/more"] pstate0 =
  ({| ps_globals := {| fileConf := ""; conf := emptyConfiguration;
                       totalFilesToCopy := 1; filesToCopy := ["/data/a"] |};
      ps_stdout := ["[ERROR]: permission denied" +:+ nl];
      ps_calls := [SysStat "/data"; SysWalk "/data"] |},
   Exit 1).
Proof.
  apply (walk_error_is_fatal failing_walk_world "/data" ["/more"] pstate0
           [{| wv_path := "/data/a";
               wv_info := Some {| Size := 12; IsDir := false |};
               wv_err := None |}]
           {| wv_path := "/data/locked"; wv_info := None;
              wv_err := Some permission_denied |}
           [{| wv_path := "/data/z";
               wv_info := Some {| Size := 12; IsDir := false |};
               wv_err := None |}]
           permission_denied).
  - reflexivity.
  - reflexivity.
  - repeat constructor; done.
  - reflexivity.
Defined.

(** ** What the set-up phase never does *)

Lemma relates_ret R {A} (a : A) :
  (forall st, R st st) -> relates R (ret a).
Proof. intros Hr st st' r H. unfold ret in H. by simplify_eq. Qed.

Lemma relates_bind R {A B} (m : proc A) (k : A -> proc B) :
  (forall s1 s2 s3, R s1 s2 -> R s2 s3 -> R s1 s3) ->
  relates R m -> (forall a, relates R (k a)) -> relates R (bind m k).
Proof.
  intros Htr Hm Hk st st' r H. unfold bind in H.
  destruct (m st) as [s1 [a|code|msg|]] eqn:Hms.
  - eapply Htr; [by eapply Hm|by eapply Hk].
  - simplify_eq. by eapply Hm.
  - simplify_eq. by eapply Hm.
  - simplify_eq. by eapply Hm.
Qed.

Lemma grows_refl allowed st : grows allowed st st.
Proof.
  exists []. split; [|done]. unfold grew_by. simpl.
  rewrite app_nil_r, Z.add_0_r. done.
Qed.

Lemma grows_trans allowed s1 s2 s3 :
  grows allowed s1 s2 -> grows allowed s2 s3 -> grows allowed s1 s3.
Proof.
  intros (a & (Hf & Ht & Hc & Hg) & Ha) (b & (Hf' & Ht' & Hc' & Hg') & Hb).
  exists (a ++ b). split; [|by apply Forall_app].
  unfold grew_by. rewrite Hf', Hf, Ht', Ht, Hc', Hc, Hg', Hg, length_app.
  rewrite <- app_assoc. repeat split; try done. lia.
Qed.

Lemma grows_weaken (P Q : string -> Prop) st st' :
  (forall p, P p -> Q p) -> grows P st st' -> grows Q st st'.
Proof.
  intros HPQ (a & Hg & Ha). exists a. split; [done|].
  eapply Forall_impl; eauto.
Qed.

Lemma grows_same_globals allowed st st' :
  ps_globals st' = ps_globals st -> grows allowed st st'.
Proof.
  intros Hg. exists []. split; [|done]. unfold grew_by. rewrite Hg. simpl.
  rewrite app_nil_r, Z.add_0_r. done.
Qed.

Lemma grows_Printf allowed line : relates (grows allowed) (Printf line).
Proof.
  intros st st' r H. unfold Printf in H. simplify_eq. by apply grows_same_globals.
Qed.

Lemma grows_syscall allowed c : relates (grows allowed) (syscall_ c).
Proof.
  intros st st' r H. unfold syscall_ in H. simplify_eq. by apply grows_same_globals.
Qed.

Lemma grows_exit allowed {A} code : relates (grows allowed) (@os_Exit A code).
Proof. intros st st' r H. unfold os_Exit in H. simplify_eq. apply grows_refl. Qed.

Lemma grows_panic allowed {A} msg : relates (grows allowed) (@panic A msg).
Proof. intros st st' r H. unfold panic in H. simplify_eq. apply grows_refl. Qed.

Lemma grows_Stat allowed os path : relates (grows allowed) (Stat os path).
Proof.
  apply relates_bind; [apply grows_trans|apply grows_syscall|].
  intros _. apply relates_ret, grows_refl.
Qed.

Lemma grows_walk_callback v :
  relates (grows (fun p => regular v = true /\ wv_path v = p)) (walk_callback v).
Proof.
  unfold walk_callback, regular.
  destruct (wv_err v) as [e|]; [apply relates_ret, grows_refl|].
  destruct (wv_info v) as [i|]; simpl.
  - unfold bind, ret, when. simpl. destruct (IsDir i); simpl.
    + intros st st' r H. simplify_eq. apply grows_refl.
    + intros st st' r H. unfold add_file, bind, get_globals, set_globals in H.
      simplify_eq. exists [wv_path v]. split; [done|]. by repeat constructor.
  - intros st st' r H. unfold bind, panic in H. simplify_eq. apply grows_refl.
Qed.

Lemma grows_walk visits :
  relates (grows (fun p => exists v, v ∈ visits /\ regular v = true /\
                                     wv_path v = p))
          (walk visits).
Proof.
  induction visits as [|v visits IH]; [apply relates_ret, grows_refl|].
  cbn [walk]. apply relates_bind; [apply grows_trans| |].
  - intros st st' r H. eapply grows_weaken; [|by eapply grows_walk_callback].
    intros p [Hr Hp]. exists v. split; [apply list_elem_of_here|done].
  - intros [e|]; [apply relates_ret, grows_refl|].
    intros st st' r H. eapply grows_weaken; [|by eapply IH].
    intros p (u & Hu & Hr & Hp). exists u. split; [|done].
    by apply list_elem_of_further.
Qed.

Lemma Stat_run os path st :
  Stat os path st = (with_output [] [SysStat path] st, Ret (os_Stat os path)).
Proof.
  unfold Stat, bind, syscall_, ret, with_output. simpl. by rewrite app_nil_r.
Qed.

Lemma grows_discovery_loop os dirs :
  relates (grows (discoverable os dirs)) (getFilesToCopy_loop os dirs).
Proof.
  induction dirs as [|d dirs IH]; [apply relates_ret, grows_refl|].
  intros st st' r0 H. cbn [getFilesToCopy_loop] in H.
  unfold bind at 1 in H. rewrite Stat_run in H.
  eapply grows_trans; [by apply (grows_same_globals _ st (with_output [] [SysStat d] st))|].
  revert H. generalize (with_output [] [SysStat d] st). intros st1 H.
  revert st1 st' r0 H. change (relates (grows (discoverable os (d :: dirs)))
    ((if IsNotExist (os_Stat os d).2
      then Printf ("[WARNING] Dir " +:+ dq +:+ d +:+ dq +:+ " not found" +:+ nl)
      else syscall_ (SysWalk d) ;;;
           err <- walk (filepath_Walk os d) ;;
           match err with
           | Some e => Printf ("[ERROR]: " +:+ Error e +:+ nl) ;;; os_Exit 1
           | None => ret tt
           end) ;;;
     getFilesToCopy_loop os dirs)).
  apply relates_bind; [apply grows_trans| |].
  - destruct (IsNotExist (os_Stat os d).2) eqn:Hne; [apply grows_Printf|].
    apply relates_bind; [apply grows_trans|apply grows_syscall|]. intros _.
    apply relates_bind; [apply grows_trans| |].
    + intros st1 st2 r' H.
      eapply grows_weaken; [|by eapply grows_walk].
      intros p (v & Hv & Hr & Hp). exists d, v.
      split; [apply list_elem_of_here|]. split; [|done].
      unfold walked. by rewrite Hne.
    + intros [e|].
      * apply relates_bind; [apply grows_trans|apply grows_Printf|].
        intros _. apply grows_exit.
      * apply relates_ret, grows_refl.
  - intros _ st1 st2 r' H. eapply grows_weaken; [|by eapply IH].
    intros p (d' & v & Hd & Hw & Hv & Hr & Hp). exists d', v.
    split; [by apply list_elem_of_further|done].
Qed.

(** Exit codes. *)
Lemma exits_ret {A} (a : A) : exits_with_1 (ret a).
Proof. intros st st' r H. unfold ret in H. by simplify_eq. Qed.

Lemma exits_bind {A B} (m : proc A) (k : A -> proc B) :
  exits_with_1 m -> (forall a, exits_with_1 (k a)) -> exits_with_1 (bind m k).
Proof.
  intros Hm Hk st st' r H. unfold bind in H.
  destruct (m st) as [s1 [a|c|msg|]] eqn:Hms.
  - by eapply Hk.
  - simplify_eq. apply (Hm _ _ _ Hms).
  - by simplify_eq.
  - simplify_eq. apply (Hm _ _ _ Hms).
Qed.

Lemma exits_exit_1 {A} : exits_with_1 (@os_Exit A 1).
Proof. intros st st' r H. unfold os_Exit in H. by simplify_eq. Qed.

Lemma exits_panic {A} msg : exits_with_1 (@panic A msg).
Proof. intros st st' r H. unfold panic in H. by simplify_eq. Qed.

Lemma exits_Printf line : exits_with_1 (Printf line).
Proof. intros st st' r H. unfold Printf in H. by simplify_eq. Qed.

Lemma exits_Printfs lines : exits_with_1 (Printfs lines).
Proof. intros st st' r H. unfold Printfs in H. by simplify_eq. Qed.

Lemma exits_syscall c : exits_with_1 (syscall_ c).
Proof. intros st st' r H. unfold syscall_ in H. by simplify_eq. Qed.

Lemma exits_get_globals : exits_with_1 get_globals.
Proof. intros st st' r H. unfold get_globals in H. by simplify_eq. Qed.

Lemma exits_when b m : exits_with_1 m -> exits_with_1 (when b m).
Proof. intros Hm. destruct b; [done|apply exits_ret]. Qed.

Lemma exits_Stat os path : exits_with_1 (Stat os path).
Proof. apply exits_bind; [apply exits_syscall|intros; apply exits_ret]. Qed.

Lemma exits_fail line : exits_with_1 (Printf line ;;; @os_Exit unit 1).
Proof. apply exits_bind; [apply exits_Printf|intros; apply exits_exit_1]. Qed.


Lemma exits_set_globals g : exits_with_1 (set_globals g).
Proof. intros st st' r H. unfold set_globals in H. by simplify_eq. Qed.






Lemma exits_walk visits : exits_with_1 (walk visits).
Proof.
  induction visits as [|v visits IH]; [apply exits_ret|].
  cbn [walk]. apply exits_bind.
  - unfold walk_callback. destruct (wv_err v); [apply exits_ret|].
    apply exits_bind.
    + unfold info_IsDir. destruct (wv_info v); [apply exits_ret|apply exits_panic].
    + intros b. apply exits_bind; [|intros; apply exits_ret].
      apply exits_when. unfold add_file.
      apply exits_bind; [apply exits_get_globals|intros; apply exits_set_globals].
  - intros [e|]; [apply exits_ret|apply IH].
Qed.

Lemma exits_getFilesToCopy os : exits_with_1 (getFilesToCopy os).
Proof.
  unfold getFilesToCopy. apply exits_bind; [apply exits_get_globals|].
  intros g. induction (Directories (conf g)) as [|d dirs IH]; [apply exits_ret|].
  cbn [getFilesToCopy_loop]. apply exits_bind; [apply exits_Stat|]. intros r.
  apply exits_bind; [|intros; apply IH].
  destruct (IsNotExist r.2); [apply exits_Printf|].
  apply exits_bind; [apply exits_syscall|]. intros _.
  apply exits_bind; [apply exits_walk|].
  intros [e|]; [apply exits_fail|apply exits_ret].
Qed.

(** X11.  Whatever the file system answers, [getFilesToCopy] only appends
    to the manifest: the old entries stay in place, every new entry is
    the path of a non-directory visit of a configured directory that
    [os.Stat] did not report missing, [totalFilesToCopy] grows by the
    number of new entries (so it stays equal to the manifest's length),
    [fileConf] and [conf] are untouched, and if it exits, the code is 1. *)
Theorem getFilesToCopy_only_appends os st st' r :
  getFilesToCopy os st = (st', r) ->
  let dirs := Directories (conf (ps_globals st)) in
  (exists added,
     grew_by added st st' /\ Forall (discoverable os dirs) added)
  /\ (consistent st -> consistent st')
  /\ (forall code, r = Exit code -> code = 1)
  /\ r <> Blocked.
Proof.
  intros H dirs.
  assert (grows (discoverable os dirs) st st') as Hg.
  { unfold getFilesToCopy, bind, get_globals in H.
    by eapply grows_discovery_loop. }
  split; [exact Hg|]. split; [|split].
  - destruct Hg as (added & (Hf & Ht & _) & _). unfold consistent.
    intros Hc. rewrite Ht, Hf, Hc, length_app. lia.
  - intros code ->. apply (exits_getFilesToCopy os _ _ _ H).
  - intros ->. apply (exits_getFilesToCopy os _ _ _ H).
Qed.

Lemma getFilesToCopy_only_appends_witness :
  exists added,
    grew_by added two_dirs_state
      (fst (getFilesToCopy two_dirs_world two_dirs_state)) /\
    Forall (discoverable two_dirs_world ["/data"; "/gone"]) added.
Proof.
  apply (getFilesToCopy_only_appends two_dirs_world two_dirs_state
           (fst (getFilesToCopy two_dirs_world two_dirs_state))
           (snd (getFilesToCopy two_dirs_world two_dirs_state))).
  reflexivity.
Defined.

(** ** Validation of the configuration *)

(** X12.  When [checkFileConf] and then [parseFileConf] both return, the
    configuration file exists and is not empty, it could be read and
    parsed, the credential file named in it exists and is not empty,
    [conf] holds the parsed configuration, nothing was printed, and the
    manifest is untouched; the calls made are, in this order, [os.Stat]
    and [ReadFile] on the configuration file, [yaml.Unmarshal], and
    [os.Stat] on the credential file. *)
Theorem validated_configuration os st st' :
  (checkFileConf os ;;; parseFileConf os) st = (st', Ret tt) ->
  let fc := fileConf (ps_globals st) in
  exists i e1 yaml cf k e2,
    os_Stat os fc = (Some i, e1) /\ IsNotExist e1 = false /\ Size i <> 0
    /\ ioutil_ReadFile os fc = (yaml, None)
    /\ yaml_Unmarshal os yaml = (cf, None)
    /\ os_Stat os (PathJSONKey (GoogleCloud cf)) = (Some k, e2)
    /\ IsNotExist e2 = false /\ Size k <> 0
    /\ st' =
       {| ps_globals :=
            {| fileConf := fc; conf := cf;
               totalFilesToCopy := totalFilesToCopy (ps_globals st);
               filesToCopy := filesToCopy (ps_globals st) |};
          ps_stdout := ps_stdout st;
          ps_calls := ps_calls st ++
                      [SysStat fc; SysReadFile fc; SysUnmarshal;
                       SysStat (PathJSONKey (GoogleCloud cf))] |}.
Proof.
  intros H fc. subst fc.
  unfold checkFileConf, parseFileConf in H.
  unfold bind at 1 2 in H. unfold get_globals at 1 in H.
  unfold bind at 1 in H. rewrite Stat_run in H.
  destruct (os_Stat os (fileConf (ps_globals st))) as [info e1] eqn:Hs1.
  unfold bind at 1 in H. unfold when at 1 in H.
  destruct (IsNotExist e1) eqn:Hn1.
  { unfold bind, Printf, os_Exit in H. done. }
  unfold ret at 1 in H. unfold bind at 1 in H.
  destruct info as [i|]; [|done]. unfold info_Size, ret at 1 in H.
  unfold when at 1 in H.
  destruct (Z.eqb_spec (Size i) 0) as [|Hsz1].
  { unfold bind, Printf, os_Exit in H. done. }
  unfold ret at 1 in H. unfold bind at 1 in H. unfold get_globals at 1 in H.
  unfold bind at 1 in H. unfold syscall_ at 1 in H.
  cbn [ps_globals with_output] in H.
  destruct (ioutil_ReadFile os (fileConf (ps_globals st))) as [yaml er] eqn:Hrd.
  unfold bind at 1 in H.
  destruct er as [er|].
  { unfold bind, Printf, os_Exit in H. done. }
  unfold ret at 1 in H. unfold bind at 1 in H. unfold syscall_ at 1 in H.
  destruct (yaml_Unmarshal os yaml) as [cf eu] eqn:Hun.
  unfold bind at 1 in H. unfold set_conf, bind at 1, get_globals, set_globals in H.
  unfold bind at 1 in H.
  destruct eu as [eu|].
  { unfold bind, Printf, os_Exit in H. done. }
  unfold ret at 1 in H. unfold bind at 1 in H. rewrite Stat_run in H.
  destruct (os_Stat os (PathJSONKey (GoogleCloud cf))) as [info2 e2] eqn:Hs2.
  unfold bind at 1 in H. unfold when at 1 in H.
  destruct (IsNotExist e2) eqn:Hn2.
  { unfold bind, Printf, os_Exit in H. done. }
  unfold ret at 1 in H. unfold bind at 1 in H.
  destruct info2 as [k|]; [|done]. unfold info_Size, ret at 1 in H.
  unfold when in H.
  destruct (Z.eqb_spec (Size k) 0) as [|Hsz2].
  { unfold bind, Printf, os_Exit in H. done. }
  unfold ret in H. simplify_eq.
  exists i, e1, yaml, cf, k, e2. repeat split; try done.
  unfold with_output. simpl. rewrite !app_nil_r, <- !app_assoc. done.
Qed.

Lemma validated_configuration_witness :
  let st' := fst ((checkFileConf good_world ;;; parseFileConf good_world)
                    two_dirs_state) in
  exists cf, yaml_Unmarshal good_world "googleCloud: ..." = (cf, None) /\
             conf (ps_globals st') = cf /\ ps_stdout st' = [].
Proof.
  intros st'.
  assert ((checkFileConf good_world ;;; parseFileConf good_world) two_dirs_state
          = (st', Ret tt)) as Hrun by reflexivity.
  destruct (validated_configuration good_world two_dirs_state st' Hrun)
    as (i & e1 & yaml & cf & k & e2 & _ & _ & _ & Hrd & Hun & _ & _ & _ & Hst).
  exists cf. simpl in Hrd. simplify_eq. split; [exact Hun|].
  rewrite Hst. done.
Defined.

(** ** [copyFiles] as a whole *)





(** ** [main] as a whole *)








(** ** The run prefix *)

Lemma string_app_length s t :
  String.length (s +:+ t) = (String.length s + String.length t)%nat.
Proof. induction s as [|c s IH]; simpl; [done|]. by rewrite IH. Qed.

Lemma string_app_inv s1 s2 t1 t2 :
  String.length s1 = String.length s2 ->
  s1 +:+ t1 = s2 +:+ t2 -> s1 = s2 /\ t1 = t2.
Proof.
  revert s2. induction s1 as [|c s1 IH]; intros [|c' s2] Hl H;
    simpl in *; try done.
  injection H as -> H. destruct (IH s2 ltac:(lia) H) as [-> ->]. done.
Qed.

Lemma pad2_length z : 0 <= z < 100 -> String.length (pad2 z) = 2%nat.
Proof.
  intros Hz.
  assert (Forall (fun z => String.length (pad2 z) = 2%nat) (seqZ 0 100)) as Hall
    by compute_done.
  rewrite Forall_forall in Hall. apply Hall. apply elem_of_seqZ. lia.
Qed.

Lemma pad2_inj a b : 0 <= a < 100 -> 0 <= b < 100 -> pad2 a = pad2 b -> a = b.
Proof.
  intros Ha Hb.
  assert (Forall (fun a => Forall (fun b => pad2 a = pad2 b -> a = b)
                                  (seqZ 0 100)) (seqZ 0 100)) as Hall
    by compute_done.
  rewrite Forall_forall in Hall.
  specialize (Hall a ltac:(apply elem_of_seqZ; lia)).
  rewrite Forall_forall in Hall. apply Hall. apply elem_of_seqZ. lia.
Qed.

(** A two-digit field in front of the rest of the prefix. *)
Lemma pad2_field a b r r' :
  0 <= a < 100 -> 0 <= b < 100 ->
  pad2 a +:+ r = pad2 b +:+ r' -> a = b /\ r = r'.
Proof.
  intros Ha Hb H.
  destruct (string_app_inv (pad2 a) (pad2 b) r r') as [Hp Hr]; [|done|].
  - by rewrite !pad2_length.
  - split; [by apply pad2_inj|done].
Qed.

(** X15.  The run prefix renders the broken-down local start time and
    nothing else: two start times whose month, day, hour, minute and
    second fit two digits give the same prefix exactly when they agree on
    year, month, day, hour, minute and second as the local clock read
    them.  The instant itself plays no part, so two runs at different
    instants whose local clocks read the same (an hour apart across a
    daylight-saving fall-back, say) write under the same prefix. *)
Theorem run_prefix_reads_the_wall_clock (t1 t2 : Time) :
  two_digit_fields t1 -> two_digit_fields t2 ->
  (run_prefix t1 = run_prefix t2 <->
   Year t1 = Year t2 /\ Month t1 = Month t2 /\ Day t1 = Day t2 /\
   Hour t1 = Hour t2 /\ Minute t1 = Minute t2 /\ Sec t1 = Sec t2).
Proof.
  intros (Hm1 & Hd1 & Hh1 & Hi1 & Hs1) (Hm2 & Hd2 & Hh2 & Hi2 & Hs2). split.
  - intros H. unfold run_prefix in H.
    assert (String.length (pretty (Year t1)) = String.length (pretty (Year t2)))
      as Hlen.
    { apply (f_equal String.length) in H.
      rewrite !string_app_length, !pad2_length in H by done. simpl in H. lia. }
    apply string_app_inv in H as [Hy H]; [|done].
    apply (inj pretty) in Hy.
    injection H as H.
    apply pad2_field in H as [Hm H]; [|done..]. injection H as H.
    apply pad2_field in H as [Hd H]; [|done..]. injection H as H.
    apply pad2_field in H as [Hh H]; [|done..]. injection H as H.
    apply pad2_field in H as [Hi H]; [|done..]. injection H as H.
    apply pad2_inj in H; done.
  - intros (Hy & Hm & Hd & Hh & Hi & Hs). unfold run_prefix.
    by rewrite Hy, Hm, Hd, Hh, Hi, Hs.
Qed.

Lemma run_prefix_reads_the_wall_clock_witness :
  run_prefix demo_time = run_prefix demo_time2 /\
  UnixNano demo_time2 - UnixNano demo_time = 3600 * Second.
Proof.
  assert (two_digit_fields demo_time) as H1 by (unfold two_digit_fields; simpl; lia).
  assert (two_digit_fields demo_time2) as H2 by (unfold two_digit_fields; simpl; lia).
  split; [|reflexivity].
  apply (run_prefix_reads_the_wall_clock demo_time demo_time2 H1 H2).
  repeat split; reflexivity.
Defined.

(** ** Which lines are printed *)

Lemma printed_app p q : printed (p ++ q) = printed p ++ printed q.
Proof.
  induction p as [|a p IH]; [done|]. destruct a; simpl; by rewrite ?IH.
Qed.

Lemma file_body_printed E ctx bucket pathBase n path :
  printed (file_body E ctx bucket pathBase n path) =
  if missing (E n) then
    ["[WARNING] File " +:+ dq +:+ path +:+ dq +:+ " not found" +:+ nl]
  else if transferred (E n) then
    ["[OK] File " +:+ dq +:+ pathBase +:+ path +:+ dq
     +:+ " copied successfully" +:+ nl]
  else [].
Proof.
  unfold file_body, transferred, present_openable, missing.
  by destruct (IsNotExist (fe_stat (E n))), (fe_open (E n)), (fe_copy (E n)),
       (fe_close (E n)).
Qed.

Lemma worker_loop_printed E ctx bucket pathBase (files : list string) k n :
  0 <= n -> n + Z.of_nat k <= Z.of_nat (length files) ->
  printed (worker_loop E ctx bucket pathBase files k n) =
  concat (line_of E pathBase files <$> seqZ n (Z.of_nat k)).
Proof.
  revert n. induction k as [|k IH]; intros n H0 Hk; [done|].
  rewrite worker_loop_S. cbn [printed].
  rewrite (seqZ_cons n (Z.of_nat (S k))) by lia.
  rewrite fmap_cons. cbn [concat]. unfold line_of at 1.
  destruct (index_in_range files n ltac:(lia)) as [path ->].
  rewrite printed_app, file_body_printed, IH by lia.
  replace (Z.succ n) with (n + 1) by lia.
  replace (Z.pred (Z.of_nat (S k))) with (Z.of_nat k) by lia. done.
Qed.

Lemma goroutine_printed E ctx bucket pathBase (files : list string) u :
  in_range files u ->
  printed (goroutine E ctx bucket pathBase files (fst u) (snd u)) =
  concat (line_of E pathBase files <$> seqZ (fst u) (snd u - fst u + 1)).
Proof.
  intros (H0 & H1 & H2). unfold goroutine.
  rewrite printed_app, worker_loop_printed by lia. simpl.
  rewrite app_nil_r. do 3 f_equal. lia.
Qed.

Lemma spawn_printed E bucket pathBase (files : list string) :
  concat ((fun th => printed (prog th))
            <$> threads (spawn E bucket pathBase (Z.of_nat (length files)) files)) =
  concat (line_of E pathBase files <$> seqZ 0 (Z.of_nat (length files))).
Proof.
  rewrite <- (work_units_seqZ (Z.of_nat (length files))) by lia.
  rewrite <- concat_fmap_concat. rewrite <- list_fmap_compose.
  unfold spawn. simpl. rewrite <- list_fmap_compose. f_equal.
  apply Forall_fmap_ext_1.
  eapply Forall_impl; [apply (work_units_in_range files)|].
  intros u Hu. simpl. by apply goroutine_printed.
Qed.

Lemma exec_printed a l s l' s' :
  exec a l s = Some (l', s') -> stdout s' = stdout s ++ printed [a].
Proof.
  destruct a as [n [path|]|path|line|msg|n path [e|]|n c|b o c|n e|n e
                 | |k|k| |n|n| ]; simpl; intros H;
    repeat match type of H with
           | context [if ?b then _ else _] => destruct b
           end; simplify_eq; simpl; rewrite ?app_nil_r; try done;
    by destruct k.
Qed.

Lemma concat_insert_perm {A} (f : thread -> list A) ths t th th' x :
  ths !! t = Some th -> f th = x ++ f th' ->
  concat (f <$> ths) ≡ₚ x ++ concat (f <$> <[t := th']> ths).
Proof.
  revert t. induction ths as [|y ths IH]; intros t Ht Hf; [done|].
  destruct t; simpl in *.
  - simplify_eq. rewrite Hf. by rewrite app_assoc.
  - rewrite (IH t Ht Hf). apply Permutation_app_swap_app.
Qed.

Lemma step_printed t c c' :
  step t c = Some c' ->
  stdout (sh c') ++ concat ((fun th => printed (prog th)) <$> threads c') ≡ₚ
  stdout (sh c) ++ concat ((fun th => printed (prog th)) <$> threads c).
Proof.
  unfold step. destruct (crashed (sh c)); [done|].
  destruct (threads c !! t) as [th|] eqn:Ht; [|done].
  destruct (prog th) as [|a rest] eqn:Hp; [done|].
  destruct (exec a (loc th) (sh c)) as [[l' s']|] eqn:Hex; [|done].
  intros ?; simplify_eq. simpl.
  rewrite (exec_printed _ _ _ _ _ Hex), <- app_assoc.
  apply Permutation_app_head. symmetry.
  apply (concat_insert_perm (fun th => printed (prog th)) _ _ th).
  - done.
  - simpl. rewrite Hp. change (a :: rest) with ([a] ++ rest).
    by rewrite printed_app.
Qed.

Lemma run_printed sched c c' :
  run sched c = Some c' ->
  stdout (sh c') ++ concat ((fun th => printed (prog th)) <$> threads c') ≡ₚ
  stdout (sh c) ++ concat ((fun th => printed (prog th)) <$> threads c).
Proof.
  revert c. induction sched as [|t sched IH]; intros c Hrun; simpl in Hrun.
  - by simplify_eq.
  - destruct (step t c) as [c1|] eqn:Hs; [|done].
    rewrite (IH _ Hrun). by apply (step_printed t).
Qed.

(** X16.  Whatever the schedule, the lines the goroutines have written
    when the barrier opens are, up to their order, the warning of every
    missing file and the [OK] line of every transferred file, each once;
    before that, the lines written so far are among them.  Only the
    order of the lines depends on the interleaving. *)
Theorem output_is_schedule_independent
    E bucket pathBase (files : list string) sched c :
  let M := Z.of_nat (length files) in
  let all_lines := concat (line_of E pathBase files <$> seqZ 0 M) in
  run sched (spawn E bucket pathBase M files) = Some c ->
  stdout (sh c) ⊆+ all_lines
  /\ (wg (sh c) = 0 -> stdout (sh c) ≡ₚ all_lines).
Proof.
  intros M all_lines Hrun. subst M all_lines.
  pose proof (run_printed _ _ _ Hrun) as Hp.
  rewrite spawn_printed in Hp.
  change (stdout (sh (spawn E bucket pathBase (Z.of_nat (length files)) files)))
    with ([] : list string) in Hp. simpl in Hp.
  split.
  - rewrite <- Hp. apply submseteq_inserts_r. done.
  - intros Hwg.
    pose proof (run_inv _ _ _ _ _ (spawn_inv E bucket pathBase files) Hrun) as HI.
    destruct (inv_finished _ _ _ HI Hwg) as (_ & _ & Hnil).
    assert (concat ((fun th => printed (prog th)) <$> threads c) = []) as Hz.
    { revert Hnil. generalize (threads c). intros ths Hnil.
      induction ths as [|x ths IH]; [done|].
      rewrite fmap_cons. cbn [concat]. rewrite (Hnil 0%nat x eq_refl). simpl.
      apply IH. intros t th Ht. by apply (Hnil (S t)). }
    rewrite Hz, app_nil_r in Hp. done.
Qed.

Lemma output_is_schedule_independent_witness :
  stdout (sh demo_final) ≡ₚ
  concat (line_of demo_env demo_prefix (manifest 45)
            <$> seqZ 0 (Z.of_nat (length (manifest 45)))).
Proof.
  assert (run demo_sched demo_start = Some demo_final) as Hrun
    by (vm_compute; reflexivity).
  assert (wg (sh demo_final) = 0) as Hwg by (vm_compute; reflexivity).
  exact (proj2 (output_is_schedule_independent
                  demo_env "backups" demo_prefix (manifest 45)
                  demo_sched demo_final Hrun) Hwg).
Defined.
